(** * The online parser of [src/utils/onlineParser.js], embedded in Rocq

    The parser is a rule-stack machine driven one token at a time by the
    host editor.  Its state is a plain JavaScript object that [getToken]
    mutates in place; the embedding passes that object explicitly and
    returns the mutated object.  The module-level [stateCache] object is
    threaded through [getToken] in the same way. *)

From Stdlib Require Import ZArith Lia Ascii String List.
From stdpp Require Import gmap strings.

Open Scope string_scope.

Set Warnings "-register-all".

(** ** JavaScript values the parser stores *)

(** A property of a JavaScript object: the key may be missing from the
    object, present with the value [undefined], or present with a value.
    [Object.keys] (and so [assign]) sees the second and third only. *)
Inductive slot (A : Type) : Type :=
| Absent
| Undefined
| Val (a : A).
Arguments Absent {A}.
Arguments Undefined {A}.
Arguments Val {A} a.

(** Numbers held in [step], [indentLevel], [level] and [levels]: integers,
    or the [NaN] that [undefined + 1] and [undefined++] produce. *)
Inductive number : Type :=
| Num (z : Z)
| NaN.

(** The lexer's [{ kind, value }] pair. *)
Module Token.
Record t : Type := mk { kind : string; value : string }.
End Token.

(** Outcome of code that may throw a [TypeError] (a property read on
    [undefined]) or, for the token loop, may not terminate. *)
Inductive result (A : Type) : Type :=
| Ok (a : A)
| TypeError
| OutOfFuel.
Arguments Ok {A} a.
Arguments TypeError {A}.
Arguments OutOfFuel {A}.

Definition bind {A B : Type} (m : result A) (k : A -> result B) : result B :=
  match m with
  | Ok a => k a
  | TypeError => TypeError
  | OutOfFuel => OutOfFuel
  end.

Notation "'let*' x ':=' m 'in' k" := (bind m (fun x => k))
  (at level 10, x pattern, m at level 100, k at level 200).

#[global] Instance result_fmap : FMap result :=
  fun A B f m =>
    match m with
    | Ok a => Ok (f a)
    | TypeError => TypeError
    | OutOfFuel => OutOfFuel
    end.

(** A property read [o.k]: a missing key reads as [undefined]. *)
Definition read {A : Type} (s : slot A) : slot A :=
  match s with
  | Val a => Val a
  | _ => Undefined
  end.

(** Truthiness of a boolean flag ([undefined] and a missing key are falsy). *)
Definition truthy (s : slot bool) : bool :=
  match s with
  | Val b => b
  | _ => false
  end.

(** A value of object or function type is truthy whenever it is there. *)
Definition defined {A : Type} (s : slot A) : bool :=
  match s with
  | Val _ => true
  | _ => false
  end.

(** [x + 1] and [x++] on a property. *)
Definition succ_number (s : slot number) : number :=
  match s with
  | Val (Num z) => Num (z + 1)
  | _ => NaN
  end.

(** [a < b] on numbers: any comparison with [NaN] or [undefined] is false. *)
Definition number_lt (a : number) (b : slot number) : bool :=
  match a, b with
  | Num x, Val (Num y) => (x <? y)%Z
  | _, _ => false
  end.

(** ** Grammar vocabulary

    [Stream] is the host's stream object and [Update] names the [update]
    callbacks a grammar attaches to its terminals; both come from the host
    and are parameters of the whole development. *)
Section Grammar.
Context {Stream Update : Type}.

(** [{ style, match, update }], as built by [t] and [p]. *)
Record Terminal : Type := mkTerminal {
  style : option string;
  match_ : Token.t -> bool;
  update : option Update
}.

(** What a rule array holds at one step: a rule name (a string), a
    terminal, or the [{ ofRule, isList, separator }] object that [opt]
    and [list] build. *)
Inductive Item : Type :=
| Ref (ruleKind : string)
| Term (terminal : Terminal)
| Wrap (ofRule : Item) (isList : bool) (separator : option Item).

(** A value of [ParseRules]: an array of items, or a function of the
    token and the stream (a forking rule) returning an item or nothing. *)
Inductive RuleDef : Type :=
| Seq (items : list Item)
| Fork (choose : Token.t -> Stream -> option Item).

(** [opt(ofRule)] *)
Definition opt (ofRule : Item) : Item := Wrap ofRule false None.

(** [list(ofRule, separator)]; the second argument may be left out. *)
Definition list_ (ofRule : Item) (separator : option Item) : Item :=
  Wrap ofRule true separator.

(** [t(kind, style)] *)
Definition t (kind : string) (style : option string) : Item :=
  Term {| style := style;
          match_ := fun token => String.eqb (Token.kind token) kind;
          update := None |}.

(** [p(value, style)]: [style || 'punctuation']. *)
Definition p (value : string) (style : option string) : Item :=
  Term {| style := match style with
                   | Some s => if String.eqb s EmptyString then Some "punctuation" else Some s
                   | None => Some "punctuation"
                   end;
          match_ := fun token =>
            String.eqb (Token.kind token) "Punctuation" &&
            String.eqb (Token.value token) value;
          update := None |}.

(** Truthiness of an item: the empty string is the only falsy one. *)
Definition item_truthy (i : Item) : bool :=
  match i with
  | Ref k => negb (String.eqb k EmptyString)
  | _ => true
  end.

Definition opt_truthy (o : option Item) : bool :=
  match o with
  | Some i => item_truthy i
  | None => false
  end.

(** [item.ofRule], [item.isList], [item.separator]: only the wrapper
    objects have them. *)
Definition item_ofRule (i : Item) : option Item :=
  match i with
  | Wrap r _ _ => Some r
  | _ => None
  end.

Definition item_isList (i : Item) : bool :=
  match i with
  | Wrap _ b _ => b
  | _ => false
  end.

Definition item_separator (i : Item) : option Item :=
  match i with
  | Wrap _ _ s => s
  | _ => None
  end.

(** ** The parser state

    One object carries the current frame ([kind], [name], [type], [rule],
    [step], [needsSeperator]), the link to the enclosing frame
    ([prevState], itself a copy of a whole state object), and the
    fields that belong to no frame ([level], [needsAdvance], [levels],
    [indentLevel]).  Keys the host may add are not read by the parser and
    are left out. *)
Inductive ParserState : Type := mkState {
  level : slot number;
  prevState : slot ParserState;
  kind : slot string;
  name : slot (option string);
  type : slot (option string);
  rule : slot RuleDef;
  step : slot number;
  needsSeperator : slot bool;
  needsAdvance : slot bool;
  levels : slot (list number);
  indentLevel : slot number
}.

(** The object [{}]. *)
Definition emptyObject : ParserState :=
  mkState Absent Absent Absent Absent Absent Absent Absent Absent Absent
          Absent Absent.

Definition assign_slot {A : Type} (to from : slot A) : slot A :=
  match from with
  | Absent => to
  | _ => from
  end.

(** [assign(to, from)]: every key of [from] is written to [to]; keys of
    [to] that [from] lacks stay as they are. *)
Definition assign (to from : ParserState) : ParserState :=
  {| level := assign_slot (level to) (level from);
     prevState := assign_slot (prevState to) (prevState from);
     kind := assign_slot (kind to) (kind from);
     name := assign_slot (name to) (name from);
     type := assign_slot (type to) (type from);
     rule := assign_slot (rule to) (rule from);
     step := assign_slot (step to) (step from);
     needsSeperator := assign_slot (needsSeperator to) (needsSeperator from);
     needsAdvance := assign_slot (needsAdvance to) (needsAdvance from);
     levels := assign_slot (levels to) (levels from);
     indentLevel := assign_slot (indentLevel to) (indentLevel from) |}.

(** [saveState(state)]: [assign(stateCache, state)], returning the cache. *)
Definition saveState (stateCache state : ParserState) : ParserState :=
  assign stateCache state.

(** [restoreState(state)]: [assign(state, stateCache)], returning the state. *)
Definition restoreState (stateCache state : ParserState) : ParserState :=
  assign state stateCache.

(** Field updates [state.f = v]. *)
Definition set_frame (state : ParserState)
    (pS : slot ParserState) (k : slot string) (n ty : slot (option string))
    (r : slot RuleDef) (st : slot number) (sep : slot bool) : ParserState :=
  {| level := level state; prevState := pS; kind := k; name := n;
     type := ty; rule := r; step := st; needsSeperator := sep;
     needsAdvance := needsAdvance state; levels := levels state;
     indentLevel := indentLevel state |}.

Definition set_step (st : slot number) (state : ParserState) : ParserState :=
  set_frame state (prevState state) (kind state) (name state) (type state)
            (rule state) st (needsSeperator state).

Definition set_needsSeperator (b : bool) (state : ParserState) : ParserState :=
  set_frame state (prevState state) (kind state) (name state) (type state)
            (rule state) (step state) (Val b).

Definition set_needsAdvance (b : bool) (state : ParserState) : ParserState :=
  {| level := level state; prevState := prevState state; kind := kind state;
     name := name state; type := type state; rule := rule state;
     step := step state; needsSeperator := needsSeperator state;
     needsAdvance := Val b; levels := levels state;
     indentLevel := indentLevel state |}.

Definition set_levels (l : list number) (state : ParserState) : ParserState :=
  {| level := level state; prevState := prevState state; kind := kind state;
     name := name state; type := type state; rule := rule state;
     step := step state; needsSeperator := needsSeperator state;
     needsAdvance := needsAdvance state; levels := Val l;
     indentLevel := indentLevel state |}.

Definition set_indentLevel (n : number) (state : ParserState) : ParserState :=
  {| level := level state; prevState := prevState state; kind := kind state;
     name := name state; type := type state; rule := rule state;
     step := step state; needsSeperator := needsSeperator state;
     needsAdvance := needsAdvance state; levels := levels state;
     indentLevel := Val n |}.

(** Number of frames reachable through [prevState]. *)
Fixpoint depth (state : ParserState) : nat :=
  match prevState state with
  | Val prev => S (depth prev)
  | _ => 0
  end.

(** ** Frame operations *)

(** [pushRule(ParseRules, state, ruleKind)] *)
Definition pushRule (ParseRules : gmap string RuleDef) (state : ParserState)
    (ruleKind : string) : ParserState :=
  set_frame state
    (Val (assign emptyObject state))
    (Val ruleKind)
    (Val None)
    (Val None)
    (match ParseRules !! ruleKind with
     | Some r => Val r
     | None => Undefined
     end)
    (Val (Num 0))
    (Val false).

(** [popRule(state)]; reading a field of a [prevState] that is not an
    object throws. *)
Definition popRule (state : ParserState) : result ParserState :=
  match prevState state with
  | Val prev =>
      Ok (set_frame state
            (read (prevState prev))
            (read (kind prev))
            (read (name prev))
            (read (type prev))
            (read (rule prev))
            (read (step prev))
            (read (needsSeperator prev)))
  | _ => TypeError
  end.

(** [array[index]] for a number held in a property. *)
Definition index (items : list Item) (i : slot number) : option Item :=
  match i with
  | Val (Num z) => if (z <? 0)%Z then None else items !! Z.to_nat z
  | _ => None
  end.

(** [state.step < state.rule.length] *)
Definition step_in_range (items : list Item) (i : slot number) : bool :=
  match i with
  | Val (Num z) => (z <? Z.of_nat (length items))%Z
  | _ => false
  end.

(** [isList(state)]:
    [Array.isArray(state.rule) && state.rule[state.step].isList]. *)
Definition isList (state : ParserState) : result bool :=
  match rule state with
  | Val (Seq items) =>
      match index items (step state) with
      | Some item => Ok (item_isList item)
      | None => TypeError
      end
  | _ => Ok false
  end.

(** [state.rule[state.step].separator], read after [isList] held. *)
Definition current_separator (state : ParserState) : option Item :=
  match rule state with
  | Val (Seq items) =>
      match index items (step state) with
      | Some item => item_separator item
      | None => None
      end
  | _ => None
  end.

(** [state.needsSeperator = !state.needsSeperator] *)
Definition toggle_needsSeperator (state : ParserState) : ParserState :=
  set_needsSeperator (negb (truthy (needsSeperator state))) state.

(** [state.needsSeperator = false; state.step++] *)
Definition next_step (state : ParserState) : ParserState :=
  set_step (Val (succ_number (step state))) (set_needsSeperator false state).

(** The condition of the loop that pops completed rules:
    [state.rule &&
     !(Array.isArray(state.rule) && state.step < state.rule.length)]. *)
Definition completed (state : ParserState) : bool :=
  match rule state with
  | Val (Seq items) => negb (step_in_range items (step state))
  | Val (Fork _) => true
  | _ => false
  end.

(** The body of that loop after [popRule]: in the parent frame, a list
    step is kept (with its separator flag toggled), any other step is
    advanced. *)
Definition land_in_parent (state : ParserState) : result ParserState :=
  if defined (rule state) then
    let* l := isList state in
    if l then
      if opt_truthy (current_separator state)
      then Ok (toggle_needsSeperator state)
      else Ok state
    else Ok (next_step state)
  else Ok state.

(** The [while] loop of [advanceRule].  Every iteration pops one frame,
    so the loop body runs at most [depth state] times; [fuel] bounds it. *)
Fixpoint advance_loop (fuel : nat) (state : ParserState) : result ParserState :=
  if completed state then
    match fuel with
    | O => OutOfFuel
    | S fuel' =>
        let* state1 := popRule state in
        let* state2 := land_in_parent state1 in
        advance_loop fuel' state2
    end
  else Ok state.

(** [advanceRule(state, successful)] *)
Definition advanceRule (state : ParserState) (successful : bool)
    : result ParserState :=
  let* l := isList state in
  let tail (s : ParserState) :=
    let s1 := next_step s in advance_loop (S (depth s1)) s1 in
  if l then
    if opt_truthy (current_separator state) then
      let state1 := toggle_needsSeperator state in
      if negb (truthy (needsSeperator state1)) then Ok state1
      else if successful then Ok state1
      else tail state1
    else if successful then Ok state
    else tail state
  else tail state.

(** The condition of the loop of [unsuccessful]:
    [state.rule &&
     !(Array.isArray(state.rule) && state.rule[state.step].ofRule)].
    Reading [.ofRule] throws when the step is outside the array. *)
Definition intolerant (state : ParserState) : result bool :=
  match rule state with
  | Val (Seq items) =>
      match index items (step state) with
      | Some item => Ok (negb (opt_truthy (item_ofRule item)))
      | None => TypeError
      end
  | Val (Fork _) => Ok true
  | _ => Ok false
  end.

(** The [while] loop of [unsuccessful]; as above, one frame is popped
    per iteration. *)
Fixpoint unwind_loop (fuel : nat) (state : ParserState) : result ParserState :=
  let* c := intolerant state in
  if c then
    match fuel with
    | O => OutOfFuel
    | S fuel' =>
        let* state1 := popRule state in
        unwind_loop fuel' state1
    end
  else Ok state.

(** [unsuccessful(state)] *)
Definition unsuccessful (state : ParserState) : result ParserState :=
  let* state1 := unwind_loop (S (depth state)) state in
  if defined (rule state1) then advanceRule state1 false else Ok state1.

End Grammar.

Arguments Terminal : clear implicits.
Arguments Item : clear implicits.
Arguments RuleDef : clear implicits.
Arguments ParserState : clear implicits.

(** ** The host and the token step

    The stream, the regular expressions and the [update] callbacks are the
    host's.  [HostOps] collects what [getToken] calls on them. *)
Section Parser.
Context {Stream RegExp Update : Type}.

Record HostOps : Type := mkHost {
  (** [stream.sol()] *)
  sol : Stream -> bool;
  (** [stream.indentation()] *)
  indentation : Stream -> Z;
  (** [stream.match(regexp)]: the matched text and the stream moved past
      it, or nothing (the stream then stays where it is). *)
  match_regexp : Stream -> RegExp -> option (string * Stream);
  (** [stream.match(string)] *)
  match_string : Stream -> string -> option Stream;
  (** [stream.skipToEnd()] *)
  skipToEnd : Stream -> Stream;
  (** the literal [/\S+/] *)
  nonSpaces : RegExp;
  (** [expected.update(state, token)] for the callback named [u] *)
  run_update : Update -> ParserState Stream Update -> Token.t ->
               ParserState Stream Update
}.

(** The argument of [onlineParser]. *)
Record Options : Type := mkOptions {
  eatWhitespace : Stream -> bool * Stream;
  LexRules : list (string * RegExp);
  ParseRules : gmap string (RuleDef Stream Update)
}.

(** The mode object [getToken] is called on ([this]): [config.tabSize]
    and [lineComment]. *)
Record Editor : Type := mkEditor {
  tabSize : positive;
  lineComment : option string
}.

(** What one [getToken] call leaves behind: the returned style, and the
    stream, the state object and the module's [stateCache] as mutated. *)
Record Returned : Type := mkReturned {
  ret_style : option string;
  ret_stream : Stream;
  ret_state : ParserState Stream Update;
  ret_cache : ParserState Stream Update
}.

Variable host : HostOps.

(** [startState()] of the object [onlineParser(options)] returns. *)
Definition startState (options : Options) : ParserState Stream Update :=
  let initialState :=
    {| level := Val (Num 0); prevState := Absent; kind := Absent;
       name := Absent; type := Absent; rule := Absent; step := Absent;
       needsSeperator := Absent; needsAdvance := Absent; levels := Absent;
       indentLevel := Absent |} in
  pushRule (ParseRules options) initialState "Document".

(** [lex(LexRules, stream)]: the first rule, in key order, that matches. *)
Fixpoint lex (rules : list (string * RegExp)) (stream : Stream)
    : option (Token.t * Stream) :=
  match rules with
  | [] => None
  | (kind, re) :: rest =>
      match match_regexp host stream re with
      | Some (text, stream') => Some (Token.mk kind text, stream')
      | None => lex rest stream
      end
  end.

Definition first_char_in (chars : list ascii) (s : string) : bool :=
  match s with
  | String c _ => existsb (Ascii.eqb c) chars
  | EmptyString => false
  end.

(** [/^[{([]/.test(value)] *)
Definition opens_bracket (value : string) : bool :=
  first_char_in ["{"; "("; "["]%char value.

(** [/^[})\]]/.test(value)] *)
Definition closes_bracket (value : string) : bool :=
  first_char_in ["}"; ")"; "]"]%char value.

Definition is_punctuation (token : Token.t) : bool :=
  String.eqb (Token.kind token) "Punctuation".

(** [state.levels || []] *)
Definition levels_or_empty (state : ParserState Stream Update) : list number :=
  match levels state with
  | Val l => l
  | _ => []
  end.

(** "Handle changes in expected indentation level": the block run on
    every lexed token between [saveState] and the rule loop. *)
Definition track_indentation (token : Token.t)
    (state : ParserState Stream Update) : ParserState Stream Update :=
  if is_punctuation token then
    if opens_bracket (Token.value token) then
      set_levels (levels_or_empty state ++ [succ_number (indentLevel state)])
                 state
    else if closes_bracket (Token.value token) then
      let levels' := removelast (levels_or_empty state) in
      let state1 := set_levels levels' state in
      match last levels' with
      | Some top =>
          if number_lt top (indentLevel state1)
          then set_indentLevel top state1
          else state1
      | None => state1
      end
    else state
  else state.

(** The item the current frame expects: a forking rule is asked at step 0
    only, an array is read at the step. *)
Definition expected_item (token : Token.t) (stream : Stream)
    (state : ParserState Stream Update) : option (Item Update) :=
  match rule state with
  | Val (Fork choose) =>
      match step state with
      | Val (Num 0) => choose token stream
      | _ => None
      end
  | Val (Seq items) => index items (step state)
  | _ => None
  end.

(** [if (state.needsSeperator) expected = expected && expected.separator] *)
Definition expect_separator (state : ParserState Stream Update)
    (expected : option (Item Update)) : option (Item Update) :=
  if truthy (needsSeperator state) then
    match expected with
    | Some e => if item_truthy e then item_separator e else expected
    | None => None
    end
  else expected.

(** [if (expected.ofRule) expected = expected.ofRule] *)
Definition unwrap (expected : Item Update) : Item Update :=
  match item_ofRule expected with
  | Some inner => if item_truthy inner then inner else expected
  | None => expected
  end.

(** What the loop does once a terminal has matched the token: run the
    terminal's [update], then advance at once for a punctuator and set
    [needsAdvance] for any other token. *)
Definition updated (terminal : Terminal Update) (token : Token.t)
    (state : ParserState Stream Update) : ParserState Stream Update :=
  match update terminal with
  | Some u => run_update host u state token
  | None => state
  end.

Definition accept (terminal : Terminal Update) (token : Token.t)
    (state : ParserState Stream Update)
    : result (ParserState Stream Update) :=
  let state1 := updated terminal token state in
  if is_punctuation token
  then advanceRule state1 true
  else Ok (set_needsAdvance true state1).

(** What the loop finds to try against the token, once the separator
    rule and the unwrapping are applied: a rule name to push, a terminal,
    or nothing that can match. *)
Inductive Expectation : Type :=
| ExpectRule (ruleKind : string)
| ExpectTerminal (terminal : Terminal Update)
| ExpectNothing.

Definition expectation (token : Token.t) (stream : Stream)
    (state : ParserState Stream Update) : Expectation :=
  let expected := expect_separator state (expected_item token stream state) in
  if opt_truthy expected then
    match unwrap <$> expected with
    | Some (Ref ruleKind) => ExpectRule ruleKind
    | Some (Term terminal) => ExpectTerminal terminal
    | _ => ExpectNothing
    end
  else ExpectNothing.

(** The [while (state.rule)] loop of [getToken].  It returns the style of
    the terminal that accepted the token, or nothing once [state.rule] is
    empty.  A grammar whose rules refer to each other without end keeps it
    running, so it takes [fuel]. *)
Fixpoint rule_loop (fuel : nat) (rules : gmap string (RuleDef Stream Update))
    (token : Token.t) (stream : Stream) (state : ParserState Stream Update)
    : result (option (option string) * ParserState Stream Update) :=
  if defined (rule state) then
    match fuel with
    | O => OutOfFuel
    | S fuel' =>
        let retry :=
          let* state1 := unsuccessful state in
          rule_loop fuel' rules token stream state1 in
        match expectation token stream state with
        | ExpectRule ruleKind =>
            rule_loop fuel' rules token stream (pushRule rules state ruleKind)
        | ExpectTerminal terminal =>
            if match_ terminal token then
              let* state1 := accept terminal token state in
              Ok (Some (style terminal), state1)
            else retry
        | ExpectNothing => retry
        end
    end
  else Ok (None, state).

(** The first lines of [getToken]: the deferred advance, then the
    indentation of a line just started. *)
Definition deferred_advance (state : ParserState Stream Update)
    : result (ParserState Stream Update) :=
  if truthy (needsAdvance state)
  then advanceRule (set_needsAdvance false state) true
  else Ok state.

Definition remember_indentation (editor : Editor) (stream : Stream)
    (state : ParserState Stream Update) : ParserState Stream Update :=
  if sol host stream
  then set_indentLevel (Num (indentation host stream / Z.pos (tabSize editor))) state
  else state.

(** [editor.lineComment && stream.match(editor.lineComment)] *)
Definition match_lineComment (editor : Editor) (stream : Stream)
    : option Stream :=
  match lineComment editor with
  | Some c => if String.eqb c EmptyString then None else match_string host stream c
  | None => None
  end.

(** [getToken(eatWhitespace, LexRules, ParseRules, editor, stream, state)],
    run against the module's [stateCache]. *)
Definition getToken (fuel : nat) (options : Options) (editor : Editor)
    (stateCache : ParserState Stream Update) (stream : Stream)
    (state : ParserState Stream Update) : result Returned :=
  let* state1 := deferred_advance state in
  let state2 := remember_indentation editor stream state1 in
  match eatWhitespace options stream with
  | (true, stream1) => Ok (mkReturned (Some "ws") stream1 state2 stateCache)
  | (false, stream1) =>
      match match_lineComment editor stream1 with
      | Some stream2 =>
          Ok (mkReturned (Some "comment") (skipToEnd host stream2) state2 stateCache)
      | None =>
          match lex (LexRules options) stream1 with
          | None =>
              let stream2 :=
                match match_regexp host stream1 (nonSpaces host) with
                | Some (_, s) => s
                | None => stream1
                end in
              Ok (mkReturned (Some "invalidchar") stream2 state2 stateCache)
          | Some (token, stream2) =>
              let cache1 := saveState stateCache state2 in
              let state3 := track_indentation token state2 in
              let* (exit, state4) :=
                rule_loop fuel (ParseRules options) token stream2 state3 in
              match exit with
              | Some style => Ok (mkReturned style stream2 state4 cache1)
              | None =>
                  Ok (mkReturned (Some "invalidchar") stream2
                                 (restoreState cache1 state4) cache1)
              end
          end
      end
  end.

End Parser.

(** ** Terminals as shared objects

    [butNot] does not build a new terminal: it assigns to the [match]
    property of the object it is given.  Here the terminal objects live in
    a heap and are named by their location, so that two references to one
    object are the same location. *)
Module RuleObjects.

Definition loc : Type := nat.

(** A [match] function: one written out by [t] or [p], or the closure
    [token => ruleMatch(token) && exclusions.every(e => !e.match(token))]
    of [butNot], which holds the old function and the exclusions array. *)
Inductive Predicate : Type :=
| Native (test : Token.t -> bool)
| Guarded (ruleMatch : Predicate) (exclusions : list loc).

Record RuleObject : Type := mkRuleObject {
  style : option string;
  match_ : Predicate
}.

(** [exclusions.every(test)]: stops at the first exclusion that fails the
    test. *)
Fixpoint every (test : loc -> option bool) (exclusions : list loc) : option bool :=
  match exclusions with
  | [] => Some true
  | e :: rest =>
      match test e with
      | Some true => every test rest
      | other => other
      end
  end.

(** A call [f(token)] in a given heap.  The closure of [butNot] reads
    [exclusion.match] when it is called, not when it is built; a rule that
    excludes itself calls itself without end, hence the fuel. *)
Fixpoint call (fuel : nat) (heap : gmap loc RuleObject) (f : Predicate)
    (token : Token.t) : option bool :=
  match fuel with
  | O => None
  | S fuel' =>
      match f with
      | Native test => Some (test token)
      | Guarded ruleMatch exclusions =>
          match call fuel' heap ruleMatch token with
          | Some true =>
              every (fun e =>
                       match heap !! e with
                       | Some exclusion =>
                           negb <$> call fuel' heap (match_ exclusion) token
                       | None => None
                       end)
                    exclusions
          | other => other
          end
      end
  end.

(** The call returns [b]. *)
Definition returns (heap : gmap loc RuleObject) (f : Predicate)
    (token : Token.t) (b : bool) : Prop :=
  exists fuel, call fuel heap f token = Some b.

(** [rule.match(token)] returns [b], for the object at [rule]. *)
Definition matches (heap : gmap loc RuleObject) (rule : loc)
    (token : Token.t) (b : bool) : Prop :=
  exists object, heap !! rule = Some object /\ returns heap (match_ object) token b.

(** [butNot(rule, exclusions)]: the heap after the assignment to
    [rule.match], and the returned reference. *)
Definition butNot (heap : gmap loc RuleObject) (rule : loc)
    (exclusions : list loc) : option (gmap loc RuleObject * loc) :=
  match heap !! rule with
  | Some object =>
      Some (<[rule := {| style := style object;
                         match_ := Guarded (match_ object) exclusions |}]> heap,
            rule)
  | None => None
  end.

End RuleObjects.

(** * Vocabulary of the statements *)

Section FrameVocabulary.
Context {Stream Update : Type}.
Implicit Types state s : ParserState Stream Update.

(** Two states agree on every field that belongs to no frame. *)
Definition same_globals s s' : Prop :=
  level s' = level s /\ needsAdvance s' = needsAdvance s /\
  levels s' = levels s /\ indentLevel s' = indentLevel s.

(** The step of an array frame points into the array. *)
Definition step_valid (r : RuleDef Stream Update) (st : slot number) : Prop :=
  match r with
  | Seq items => is_Some (index items st)
  | Fork _ => True
  end.

(** The stack invariant: every frame with a rule has a valid step and an
    enclosing frame, down to an object without a rule (the [{ level: 0 }]
    under the root frame). *)
Inductive well_formed : ParserState Stream Update -> Prop :=
| wf_bottom s :
    defined (rule s) = false -> well_formed s
| wf_frame s r prev :
    rule s = Val r -> step_valid r (step s) ->
    prevState s = Val prev -> well_formed prev ->
    well_formed s.

(** [pops n s s']: starting at [s], the loop of [unsuccessful] finds its
    condition true [n] times in a row, pops a frame each time, and is then
    at [s']. *)
Inductive pops : nat -> ParserState Stream Update -> ParserState Stream Update -> Prop :=
| pops_O s : pops 0 s s
| pops_S n s s1 s2 :
    intolerant s = Ok true -> popRule s = Ok s1 -> pops n s1 s2 ->
    pops (S n) s s2.


(** The current frame is an array at a [list] item with a separator. *)
Definition at_separated_list s (element separator : Item Update) : Prop :=
  exists items,
    rule s = Val (Seq items) /\
    index items (step s) = Some (Wrap element true (Some separator)) /\
    item_truthy element = true /\ item_truthy separator = true.

(** What keeps the loop of [advanceRule] going: a frame with a rule has an
    enclosing frame, and the enclosing frames are well formed. *)
Definition linked s : Prop :=
  defined (rule s) = true ->
  exists prev, prevState s = Val prev /\ well_formed prev.

(** The three keys the stack hangs on are on the object. *)
Definition frame_keys s : Prop :=
  prevState s <> Absent /\ rule s <> Absent /\ step s <> Absent.

(** The invariant of the states [getToken] produces. *)
Definition stack_ok s : Prop := well_formed s /\ frame_keys s.

(** No rule of the grammar is an empty array. *)
Definition proper_grammar (rules : gmap string (RuleDef Stream Update)) : Prop :=
  forall k, rules !! k <> Some (Seq []).

(** A field is held by the snapshot when its key is there. *)
Definition held {A : Type} (saved restored : slot A) : Prop :=
  saved <> Absent -> restored = saved.

(** Every field the snapshot holds has the saved value. *)
Definition restores_held (snapshot restored : ParserState Stream Update) : Prop :=
  held (level snapshot) (level restored) /\
  held (prevState snapshot) (prevState restored) /\
  held (kind snapshot) (kind restored) /\
  held (name snapshot) (name restored) /\
  held (type snapshot) (type restored) /\
  held (rule snapshot) (rule restored) /\
  held (step snapshot) (step restored) /\
  held (needsSeperator snapshot) (needsSeperator restored) /\
  held (needsAdvance snapshot) (needsAdvance restored) /\
  held (levels snapshot) (levels restored) /\
  held (indentLevel snapshot) (indentLevel restored).

(** All eleven keys are on the object. *)
Definition has_all_keys s : Prop :=
  level s <> Absent /\ prevState s <> Absent /\ kind s <> Absent /\
  name s <> Absent /\ type s <> Absent /\ rule s <> Absent /\
  step s <> Absent /\ needsSeperator s <> Absent /\
  needsAdvance s <> Absent /\ levels s <> Absent /\ indentLevel s <> Absent.

End FrameVocabulary.

Section TokenVocabulary.
Context {Stream RegExp Update : Type}.
Variable host : @HostOps Stream RegExp Update.
Implicit Types state s cache snapshot unwound : ParserState Stream Update.
Implicit Types options : @Options Stream RegExp Update.

(** One turn of the rule loop that ends in [unsuccessful]: the same token
    is tried again on the state [unsuccessful] leaves. *)
Definition retry (fuel : nat) rules token stream s :=
  let* s1 := unsuccessful s in rule_loop host fuel rules token stream s1.


(** The [update] callbacks keep the stack in order (those of the grammars
    this parser is used with write [name] and [type] only). *)
Definition sound_updates : Prop :=
  forall u s token, stack_ok s -> stack_ok (run_update host u s token).

(** The state [getToken] saves: after the deferred advance and the
    indentation of a new line. *)
Definition snapshot_of (editor : Editor) stream s
    : result (ParserState Stream Update) :=
  let* s1 := deferred_advance s in
  Ok (remember_indentation host editor stream s1).

(** The conditions under which [getToken] reaches its last two lines:
    no whitespace and no comment, a token is lexed, and the rule loop,
    run after the save and the indentation bookkeeping, accepts nothing. *)
Definition Unrecognized options (editor : Editor) (fuel : nat) stream s
    snapshot (token : Token.t) (stream' : Stream) unwound : Prop :=
  snapshot_of editor stream s = Ok snapshot /\
  fst (eatWhitespace options stream) = false /\
  match_lineComment host editor (snd (eatWhitespace options stream)) = None /\
  lex host (LexRules options) (snd (eatWhitespace options stream)) =
    Some (token, stream') /\
  rule_loop host fuel (ParseRules options) token stream'
            (track_indentation token snapshot) = Ok (None, unwound).

End TokenVocabulary.

(** * A concrete host for the scenarios

    A stream over the text of one line, regular expressions given by the
    function that matches them at the head of the remaining text, and one
    [update] callback. *)
Module Demo.

Record Stream : Type := mkStream {
  at_start : bool;
  indent : Z;
  text : string
}.

Definition RegExp : Type := string -> option (string * string).

Inductive Update : Type := SetName.

(** The longest prefix of characters satisfying [f], and the rest. *)
Fixpoint span (f : ascii -> bool) (s : string) : string * string :=
  match s with
  | String c r =>
      if f c then let (m, r') := span f r in (String c m, r') else (EmptyString, s)
  | EmptyString => (EmptyString, EmptyString)
  end.

(** [/^[...]+/] *)
Definition many (f : ascii -> bool) : RegExp :=
  fun s =>
    match span f s with
    | (EmptyString, _) => None
    | (m, r) => Some (m, r)
    end.

(** [/^[...]/] *)
Definition single (f : ascii -> bool) : RegExp :=
  fun s =>
    match s with
    | String c r => if f c then Some (String c EmptyString, r) else None
    | EmptyString => None
    end.

Definition is_space (c : ascii) : bool := Ascii.eqb c " ".

Definition is_digit (c : ascii) : bool :=
  (48 <=? nat_of_ascii c)%nat && (nat_of_ascii c <=? 57)%nat.

Definition is_letter (c : ascii) : bool :=
  (97 <=? nat_of_ascii c)%nat && (nat_of_ascii c <=? 122)%nat.

Definition is_punctuator (c : ascii) : bool :=
  existsb (Ascii.eqb c) ["["; "]"; "("; ")"; "{"; "}"; ","; "!"; "@"]%char.

Fixpoint strip_prefix (pre s : string) : option string :=
  match pre, s with
  | EmptyString, _ => Some s
  | String a pre', String b s' =>
      if Ascii.eqb a b then strip_prefix pre' s' else None
  | String _ _, EmptyString => None
  end.

Definition moved (s : Stream) (rest : string) : Stream :=
  mkStream false (indent s) rest.

Definition set_name (v : string) (state : ParserState Stream Update)
    : ParserState Stream Update :=
  set_frame state (prevState state) (kind state) (Val (Some v)) (type state)
            (rule state) (step state) (needsSeperator state).

Definition host : @HostOps Stream RegExp Update :=
  {| sol := at_start;
     indentation := indent;
     match_regexp := fun s re =>
       match re (text s) with
       | Some (m, r) => Some (m, moved s r)
       | None => None
       end;
     match_string := fun s str =>
       match strip_prefix str (text s) with
       | Some r => Some (moved s r)
       | None => None
       end;
     skipToEnd := fun s => moved s EmptyString;
     nonSpaces := many (fun c => negb (is_space c));
     run_update := fun u state token =>
       match u with SetName => set_name (Token.value token) state end |}.

Definition eatSpaces (s : Stream) : bool * Stream :=
  match span is_space (text s) with
  | (EmptyString, _) => (false, s)
  | (_, r) => (true, moved s r)
  end.

Definition lexRules : list (string * RegExp) :=
  [("Punctuation", single is_punctuator);
   ("Number", many is_digit);
   ("Name", many is_letter)].

Definition editor : Editor := mkEditor 2 (Some "#").

(** A line of [text] about to be read, indented by [n] columns. *)
Definition line (n : Z) (text : string) : Stream := mkStream true n text.

(** The stream in the middle of a line, at [text]. *)
Definition at_text (text : string) : Stream := mkStream false 0 text.

(** The grammar of the bracketed number list:
    [Document: [p('['), list(t('Number', 'number'), p(',')), p(']')]]. *)
Definition numberList : gmap string (RuleDef Stream Update) :=
  {[ "Document" :=
       Seq [p "[" None;
            list_ (t "Number" (Some "number")) (Some (p "," None));
            p "]" None] ]}.

(** [Document: [list(p('('))]] *)
Definition parens : gmap string (RuleDef Stream Update) :=
  {[ "Document" := Seq [list_ (p "(" None) None] ]}.

(** [Document: [list(t('Name', 'variable')), list(p('('))]] *)
Definition namesThenParens : gmap string (RuleDef Stream Update) :=
  {[ "Document" :=
       Seq [list_ (t "Name" (Some "variable")) None;
            list_ (p "(" None) None] ]}.

Definition numberListOptions : @Options Stream RegExp Update :=
  mkOptions eatSpaces lexRules numberList.

Definition parensOptions : @Options Stream RegExp Update :=
  mkOptions eatSpaces lexRules parens.

Definition namesThenParensOptions : @Options Stream RegExp Update :=
  mkOptions eatSpaces lexRules namesThenParens.

(** The host's loop over one line: [getToken] is called until the stream
    is at the end of the line; what each call returned is collected in
    order. *)
Fixpoint tokenize (calls fuel : nat) (options : @Options Stream RegExp Update)
    (cache : ParserState Stream Update) (stream : Stream)
    (state : ParserState Stream Update)
    : result (list (@Returned Stream Update)) :=
  match text stream, calls with
  | EmptyString, _ => Ok []
  | _, O => OutOfFuel
  | _, S calls' =>
      let* r := getToken host fuel options editor cache stream state in
      let* rest :=
        tokenize calls' fuel options (ret_cache r) (ret_stream r) (ret_state r) in
      Ok (r :: rest)
  end.

(** What the [i]-th call of a run returned. *)
Definition call_nr (i : nat) (run : result (list (@Returned Stream Update)))
    : option (@Returned Stream Update) :=
  match run with
  | Ok calls => calls !! i
  | _ => None
  end.

Definition styles (run : result (list (@Returned Stream Update)))
    : result (list (option string)) :=
  map ret_style <$> run.

(** The state of the number-list parser at the start, after [[], and
    after [[1]. *)
Definition fresh : ParserState Stream Update := startState numberListOptions.

Definition state_of (r : option (@Returned Stream Update))
    : ParserState Stream Update :=
  match r with
  | Some r => ret_state r
  | None => emptyObject
  end.

Definition after_open : ParserState Stream Update :=
  state_of (call_nr 0 (tokenize 10 20 numberListOptions emptyObject
                                (line 0 "[1") fresh)).

Definition after_one : ParserState Stream Update :=
  state_of (call_nr 1 (tokenize 10 20 numberListOptions emptyObject
                                (line 0 "[1") fresh)).

Definition open_paren : Token.t := Token.mk "Punctuation" "(".

Definition one : Token.t := Token.mk "Number" "1".

(** The terminal [t('Number', 'number')] of the grammar. *)
Definition number_terminal : Terminal Update :=
  {| style := Some "number";
     match_ := fun token => String.eqb (Token.kind token) "Number";
     update := None |}.

(** The state a rule loop ends in. *)
Definition unwound_of
    (r : result (option (option string) * ParserState Stream Update))
    : ParserState Stream Update :=
  match r with
  | Ok (_, s) => s
  | _ => emptyObject
  end.

(** Two parsers, made by two calls of [onlineParser], on the one cache of
    the module.  Parser A reads [,] and then [\]]. *)
Definition parserA_first : result (@Returned Stream Update) :=
  getToken host 20 numberListOptions editor emptyObject (line 0 ",")
           (startState numberListOptions).

Definition parserA_alone : result (@Returned Stream Update) :=
  let* a1 := parserA_first in
  getToken host 20 numberListOptions editor (ret_cache a1) (line 0 "]")
           (ret_state a1).

(** The same two calls of parser A, with parser B reading [((] between
    them. *)
Definition parserB_between (cache : ParserState Stream Update)
    : result (@Returned Stream Update) :=
  let* b1 :=
    getToken host 20 parensOptions editor cache (line 0 "((")
             (startState parensOptions) in
  getToken host 20 parensOptions editor (ret_cache b1) (ret_stream b1)
           (ret_state b1).

Definition parserA_interleaved : result (@Returned Stream Update) :=
  let* a1 := parserA_first in
  let* b2 := parserB_between (ret_cache a1) in
  getToken host 20 numberListOptions editor (ret_cache b2) (line 0 "]")
           (ret_state a1).

(** One pass over the line [a\]((], and a second parse of its last three
    tokens from a copy of the state the pass had after [a], made once the
    pass is over. *)
Definition one_pass : result (list (@Returned Stream Update)) :=
  tokenize 10 20 namesThenParensOptions emptyObject (line 0 "a]((")
           (startState namesThenParensOptions).

Definition resumed : result (list (@Returned Stream Update)) :=
  match one_pass with
  | Ok [r1; r2; r3; r4] =>
      tokenize 10 20 namesThenParensOptions (ret_cache r4) (ret_stream r1)
               (assign emptyObject (ret_state r1))
  | _ => TypeError
  end.

(** Three terminal objects on the heap: [t('Name', 'variable')] at 0,
    [p('on')]-like keyword tests at 1 and 2. *)
Definition keyword (word : string) : RuleObjects.RuleObject :=
  {| RuleObjects.style := Some "keyword";
     RuleObjects.match_ :=
       RuleObjects.Native (fun token =>
         String.eqb (Token.kind token) "Name" &&
         String.eqb (Token.value token) word) |}.

Definition terminals : gmap RuleObjects.loc RuleObjects.RuleObject :=
  {[ 0 := {| RuleObjects.style := Some "variable";
             RuleObjects.match_ :=
               RuleObjects.Native (fun token =>
                 String.eqb (Token.kind token) "Name") |};
     1 := keyword "on";
     2 := keyword "true" ]}.

End Demo.

(** * The callers of the parser and the other source files *)

(** ** [runMode] of [hint.js]

    [runMode] makes a start state and calls the mode's [token] on every
    line until the stream is at the end of the line, handing the state,
    the style and the stream to [iterFn] after each call.  The mode is
    taken to be the object [onlineParser(options)] returns: its
    [startState] and [token] are [startState] and [getToken], and the mode
    itself is the [editor] that [getToken] reads [config.tabSize] and
    [lineComment] from.  What [iterFn] gathers is the accumulator [acc]. *)
Section RunMode.
Context {Stream RegExp Update A : Type}.
Variable host : @HostOps Stream RegExp Update.

(** [stream.eol()] *)
Variable eol : Stream -> bool.

(** [stream.start = stream.pos] *)
Variable set_start : Stream -> Stream.

Variable iterFn :
  A -> ParserState Stream Update -> option string -> Stream -> A.

(** The [while (!stream.eol())] loop on one line; [calls] bounds the
    number of turns, as a stream that no call moves never ends. *)
Fixpoint run_line (calls fuel : nat) (options : @Options Stream RegExp Update)
    (editor : Editor) (cache : ParserState Stream Update) (stream : Stream)
    (state : ParserState Stream Update) (acc : A)
    : result (ParserState Stream Update * ParserState Stream Update * A) :=
  if eol stream then Ok (cache, state, acc)
  else
    match calls with
    | O => OutOfFuel
    | S calls' =>
        let* r := getToken host fuel options editor cache stream state in
        run_line calls' fuel options editor (ret_cache r)
                 (set_start (ret_stream r)) (ret_state r)
                 (iterFn acc (ret_state r) (ret_style r) (ret_stream r))
    end.

(** [editor.eachLine(line => ...)], each line with a stream of its own. *)
Fixpoint run_lines (calls fuel : nat) (options : @Options Stream RegExp Update)
    (editor : Editor) (cache : ParserState Stream Update)
    (lines : list Stream) (state : ParserState Stream Update) (acc : A)
    : result (ParserState Stream Update * ParserState Stream Update * A) :=
  match lines with
  | [] => Ok (cache, state, acc)
  | stream :: rest =>
      let* (cache1, state1, acc1) :=
        run_line calls fuel options editor cache stream state acc in
      run_lines calls fuel options editor cache1 rest state1 acc1
  end.

(** [runMode(editor, modeSpec, iterFn)], on the lines of the editor. *)
Definition runMode (calls fuel : nat) (options : @Options Stream RegExp Update)
    (editor : Editor) (cache : ParserState Stream Update)
    (lines : list Stream) (acc : A)
    : result (ParserState Stream Update * ParserState Stream Update * A) :=
  run_lines calls fuel options editor cache lines (startState options) acc.

End RunMode.

(** ** [HistoryStore]

    The store keeps its items in an array and writes them, serialized,
    to a storage object it is given.  The storage and [JSON.stringify] are
    the host's. *)
Module HistoryStore.
Section Store.
Context {Item Storage : Type}.

(** [storage.set(key, value)]: whether the call returned a truthy value,
    and the storage after it. *)
Variable storage_set : Storage -> string -> string -> bool * Storage.

(** [JSON.stringify({ [key]: items })] *)
Variable stringify : string -> list Item -> string.

Record t : Type := mk {
  key : string;
  storage : Storage;
  items : list Item
}.

(** The getter [length]. *)
Definition length_ (store : t) : nat := length (items store).

(** [fetchRecent()]: [items[items.length - 1]], [undefined] on an empty
    array. *)
Definition fetchRecent (store : t) : option Item := last (items store).

(** The loop of [save()]:
    [while (items.length > 10 && !storage.set(key, value)) items.shift()].
    The storage is written only when the first test holds. *)
Fixpoint save_loop (k : string) (st : Storage) (its : list Item)
    : Storage * list Item :=
  match its with
  | [] => (st, its)
  | _ :: rest =>
      if (10 <? length its)%nat then
        let (stored, st') := storage_set st k (stringify k its) in
        if stored then (st', its) else save_loop k st' rest
      else (st, its)
  end.

(** [save()] *)
Definition save (store : t) : t :=
  let (st, its) := save_loop (key store) (storage store) (items store) in
  mk (key store) st its.

(** [push(item)] *)
Definition push (store : t) (item : Item) : t :=
  save (mk (key store) (storage store) (items store ++ [item])).

(** [shift()] *)
Definition shift (store : t) : t :=
  save (mk (key store) (storage store) (tail (items store))).

End Store.
End HistoryStore.

(** ** The display name of [HistoryQuery]

    [operationName ||
     query.split('\n').filter(line => line.indexOf('#') !== 0).join('')] *)
Module HistoryQuery.

Definition newline : ascii := ascii_of_nat 10.

(** [s.split('\n')]: always at least one piece. *)
Fixpoint split_lines (s : string) : list string :=
  match s with
  | EmptyString => [EmptyString]
  | String c rest =>
      if Ascii.eqb c newline then EmptyString :: split_lines rest
      else
        match split_lines rest with
        | line :: lines => String c line :: lines
        | [] => [String c EmptyString]
        end
  end.

(** [line.indexOf('#') !== 0] *)
Definition not_comment (line : string) : bool :=
  match line with
  | String c _ => negb (Ascii.eqb c "#")
  | EmptyString => true
  end.

(** [pieces.join('')] *)
Definition join (pieces : list string) : string :=
  fold_right String.append EmptyString pieces.

(** The name shown; a missing [query] is read only when there is no
    operation name, and then throws. *)
Definition displayName (operationName query : option string) : result string :=
  match operationName with
  | Some (String c rest) => Ok (String c rest)
  | _ =>
      match query with
      | Some q => Ok (join (filter (fun line => not_comment line = true)
                                   (split_lines q)))
      | None => TypeError
      end
  end.

End HistoryQuery.

(** ** The child [ToolbarSelect] shows

    [render] walks the children in order and keeps in [selectedChild] the
    first child, replaced by every later child with a truthy [selected];
    it then shows [selectedChild.props.label]. *)
Module ToolbarSelect.

Record Child : Type := mkChild {
  selected : bool;
  label : string
}.

(** One turn of the callback given to [React.Children.map]. *)
Definition visit (selectedChild : option Child) (child : Child) : option Child :=
  match selectedChild with
  | None => Some child
  | Some _ => if selected child then Some child else selectedChild
  end.

Definition selectedChild (children : list Child) : option Child :=
  fold_left visit children None.

(** [selectedChild.props.label]; with no child it is a read on
    [undefined]. *)
Definition shown_label (children : list Child) : result string :=
  match selectedChild children with
  | Some child => Ok (label child)
  | None => TypeError
  end.

End ToolbarSelect.

(** ** More grammars and states for the scenarios *)
Module Demo2.
Import Demo.

(** The items of the number-list rule. *)
Definition numberItems : list (Item Update) :=
  [p "[" None;
   list_ (t "Number" (Some "number")) (Some (p "," None));
   p "]" None].

(** [Document: ['Value']], with no rule ['Value']. *)
Definition danglingRules : gmap string (RuleDef Stream Update) :=
  {[ "Document" := Seq [Ref "Value"] ]}.

(** [Document: ['Value'], Value: []] *)
Definition emptyRules : gmap string (RuleDef Stream Update) :=
  <["Value" := Seq []]> danglingRules.

(** [Document: ['Document']] *)
Definition loopRules : gmap string (RuleDef Stream Update) :=
  {[ "Document" := Seq [Ref "Document"] ]}.

Definition start_of (rules : gmap string (RuleDef Stream Update))
    : ParserState Stream Update :=
  startState (mkOptions eatSpaces lexRules rules).

(** The state saved when [(] follows [[1]: the advance deferred by [1]
    is done. *)
Definition saved_after_one : ParserState Stream Update :=
  match snapshot_of host editor (at_text "(") after_one with
  | Ok s => s
  | _ => emptyObject
  end.

(** [stream.eol()] of the stream of [Demo]. *)
Definition at_end (s : Stream) : bool :=
  match text s with
  | EmptyString => true
  | _ => false
  end.

(** An [iterFn] that keeps every state it is handed. *)
Definition keep_state (acc : list (ParserState Stream Update))
    (state : ParserState Stream Update) (style : option string)
    (stream : Stream) : list (ParserState Stream Update) :=
  acc ++ [state].

(** A storage that takes nothing. *)
Definition full_storage (st : list string) (k v : string)
    : bool * list string := (false, st).

Definition count_items (k : string) (its : list nat) : string :=
  String.concat "," (map (fun _ => "i") its).

Definition small_store : @HistoryStore.t nat (list string) :=
  HistoryStore.mk "queries" [] [1; 2; 3]%nat.

Definition big_store : @HistoryStore.t nat (list string) :=
  HistoryStore.mk "queries" [] (seq 1 12).

Definition close_bracket : Token.t := Token.mk "Punctuation" "]".


(** A state at indentation 2 with the levels [1] and [3] on the stack. *)
Definition indented : ParserState Stream Update :=
  set_indentLevel (Num 2) (set_levels [Num 1; Num 3] fresh).

End Demo2.

(** * More vocabulary *)
Section MoreVocabulary.
Context {Stream Update : Type}.
Implicit Types state s : ParserState Stream Update.

(** The seven keys of the frame are on the object. *)
Definition whole_frame s : Prop :=
  prevState s <> Absent /\ kind s <> Absent /\ name s <> Absent /\
  type s <> Absent /\ rule s <> Absent /\ step s <> Absent /\
  needsSeperator s <> Absent.

(** The current rule is empty, or an array with the step below its
    length. *)
Definition settled s : Prop :=
  match rule s with
  | Val (Seq items) => step_in_range items (step s) = true
  | Val (Fork _) => False
  | _ => True
  end.








(** A rule held by a frame of the stack. *)
Inductive on_stack : ParserState Stream Update -> RuleDef Stream Update -> Prop :=
| on_stack_here s r : rule s = Val r -> on_stack s r
| on_stack_below s prev r :
    prevState s = Val prev -> on_stack prev r -> on_stack s r.

(** The terminal is the item itself or what an [opt] or [list] wraps. *)
Definition bare_or_wrapped (item : Item Update) (terminal : Terminal Update)
    : Prop :=
  item = Term terminal \/
  exists isList separator, item = Wrap (Term terminal) isList separator.

(** The terminal is written in the item: as the item, as what it wraps,
    or as its separator. *)
Definition item_terminal (item : Item Update) (terminal : Terminal Update)
    : Prop :=
  bare_or_wrapped item terminal \/
  exists inner isList separator,
    item = Wrap inner isList (Some separator) /\
    bare_or_wrapped separator terminal.

(** The terminal is written in the rule: in an item of the array, or in
    the item a forking rule returns for the token. *)
Definition rule_terminal (token : Token.t) (stream : Stream)
    (r : RuleDef Stream Update) (terminal : Terminal Update) : Prop :=
  match r with
  | Seq items => exists item, In item items /\ item_terminal item terminal
  | Fork choose =>
      exists item, choose token stream = Some item /\
      item_terminal item terminal
  end.

(** Every key of [old] is a key of [new]. *)
Definition keeps_keys (old new : ParserState Stream Update) : Prop :=
  (level old <> Absent -> level new <> Absent) /\
  (prevState old <> Absent -> prevState new <> Absent) /\
  (kind old <> Absent -> kind new <> Absent) /\
  (name old <> Absent -> name new <> Absent) /\
  (type old <> Absent -> type new <> Absent) /\
  (rule old <> Absent -> rule new <> Absent) /\
  (step old <> Absent -> step new <> Absent) /\
  (needsSeperator old <> Absent -> needsSeperator new <> Absent) /\
  (needsAdvance old <> Absent -> needsAdvance new <> Absent) /\
  (levels old <> Absent -> levels new <> Absent) /\
  (indentLevel old <> Absent -> indentLevel new <> Absent).

(** [a <= b] for the numbers that are no [NaN]. *)
Definition number_le (a b : slot number) : Prop :=
  match a, b with
  | Val (Num x), Val (Num y) => (x <= y)%Z
  | _, _ => a = b
  end.

End MoreVocabulary.

(** * Properties *)

(** ** The rule operations write frame fields only *)
Section FrameFacts.
Context {Stream Update : Type}.
Implicit Types state s : ParserState Stream Update.

Lemma same_globals_refl s : same_globals s s.
Proof. by repeat split. Qed.

Lemma same_globals_trans s1 s2 s3 :
  same_globals s1 s2 -> same_globals s2 s3 -> same_globals s1 s3.
Proof.
  intros (a1 & a2 & a3 & a4) (b1 & b2 & b3 & b4).
  by repeat split; etrans.
Qed.

Lemma set_frame_globals s pS k n ty r st sep :
  same_globals s (set_frame s pS k n ty r st sep).
Proof. by repeat split. Qed.

Lemma popRule_globals s s' : popRule s = Ok s' -> same_globals s s'.
Proof.
  unfold popRule. destruct (prevState s); try discriminate.
  intros [= <-]. apply set_frame_globals.
Qed.

Lemma next_step_globals s : same_globals s (next_step s).
Proof. by repeat split. Qed.

Lemma toggle_globals s : same_globals s (toggle_needsSeperator s).
Proof. by repeat split. Qed.

Lemma land_in_parent_globals s s' :
  land_in_parent s = Ok s' -> same_globals s s'.
Proof.
  unfold land_in_parent. destruct (defined (rule s)).
  - destruct (isList s) as [[] | |]; simpl; try discriminate.
    + destruct (opt_truthy _); intros [= <-];
        [apply toggle_globals | apply same_globals_refl].
    + intros [= <-]. apply next_step_globals.
  - intros [= <-]. apply same_globals_refl.
Qed.

Lemma advance_loop_globals fuel : forall s s',
  advance_loop fuel s = Ok s' -> same_globals s s'.
Proof.
  induction fuel as [| fuel IH]; intros s s'; simpl.
  - destruct (completed s); [discriminate |].
    intros [= <-]. apply same_globals_refl.
  - destruct (completed s).
    + destruct (popRule s) as [s1 | |] eqn:Hpop; simpl; try discriminate.
      destruct (land_in_parent s1) as [s2 | |] eqn:Hland; simpl; try discriminate.
      intros Hloop.
      eapply same_globals_trans; [by apply popRule_globals |].
      eapply same_globals_trans; [by apply land_in_parent_globals |].
      by apply IH.
    + intros [= <-]. apply same_globals_refl.
Qed.

Lemma advanceRule_globals s b s' :
  advanceRule s b = Ok s' -> same_globals s s'.
Proof.
  unfold advanceRule.
  assert (Htail : forall s0 s1,
    advance_loop (S (depth (next_step s0))) (next_step s0) = Ok s1 ->
    same_globals s0 s1).
  { intros s0 s1 H. eapply same_globals_trans; [apply next_step_globals |].
    by eapply advance_loop_globals. }
  destruct (isList s) as [[] | |]; cbn [bind]; try discriminate.
  - destruct (opt_truthy (current_separator s)).
    + destruct (negb (truthy (needsSeperator (toggle_needsSeperator s)))).
      * intros [= <-]. apply toggle_globals.
      * destruct b.
        -- intros [= <-]. apply toggle_globals.
        -- intros H. eapply same_globals_trans; [apply toggle_globals |].
           by apply Htail.
    + destruct b.
      * intros [= <-]. apply same_globals_refl.
      * apply Htail.
  - apply Htail.
Qed.

Lemma unwind_loop_globals fuel : forall s s',
  unwind_loop fuel s = Ok s' -> same_globals s s'.
Proof.
  induction fuel as [| fuel IH]; intros s s'; simpl;
    destruct (intolerant s) as [[] | |]; simpl; try discriminate;
    try (intros [= <-]; apply same_globals_refl).
  destruct (popRule s) as [s1 | |] eqn:Hpop; simpl; try discriminate.
  intros H. eapply same_globals_trans; [by apply popRule_globals |].
  by apply IH.
Qed.

Lemma unsuccessful_globals s s' :
  unsuccessful s = Ok s' -> same_globals s s'.
Proof.
  unfold unsuccessful.
  destruct (unwind_loop _ s) as [s1 | |] eqn:Hloop; simpl; try discriminate.
  apply unwind_loop_globals in Hloop.
  destruct (defined (rule s1)).
  - intros H. eapply same_globals_trans; [done |].
    by eapply advanceRule_globals.
  - by intros [= <-].
Qed.

Lemma pushRule_globals rules s k : same_globals s (pushRule rules s k).
Proof. by repeat split. Qed.

(** ** The stack invariant and the two popping loops *)

Lemma defined_read {A : Type} (x : slot A) : defined (read x) = defined x.
Proof. by destruct x. Qed.

Lemma read_Val {A : Type} (x : slot A) (a : A) : x = Val a -> read x = Val a.
Proof. by intros ->. Qed.

Lemma index_read (items : list (Item Update)) (st : slot number) :
  index items (read st) = index items st.
Proof. by destruct st. Qed.

Lemma depth_unfold s :
  depth s = match prevState s with Val prev => S (depth prev) | _ => 0 end.
Proof. by destruct s. Qed.

Lemma depth_popRule s s' : popRule s = Ok s' -> S (depth s') = depth s.
Proof.
  unfold popRule. rewrite (depth_unfold s).
  destruct (prevState s) as [| | prev]; try discriminate.
  intros [= <-]. rewrite (depth_unfold prev), depth_unfold. simpl.
  by destruct (prevState prev).
Qed.

Lemma depth_same_prevState s s' :
  prevState s' = prevState s -> depth s' = depth s.
Proof. intros H. by rewrite (depth_unfold s'), (depth_unfold s), H. Qed.

Lemma land_in_parent_depth s s' :
  land_in_parent s = Ok s' -> depth s' = depth s.
Proof.
  unfold land_in_parent. destruct (defined (rule s)).
  - destruct (isList s) as [[] | |]; simpl; try discriminate.
    + destruct (opt_truthy _); intros [= <-]; by apply depth_same_prevState.
    + intros [= <-]. by apply depth_same_prevState.
  - by intros [= <-].
Qed.

Lemma popRule_fuel s : popRule s <> OutOfFuel.
Proof. unfold popRule. by destruct (prevState s). Qed.

Lemma isList_fuel s : isList s <> OutOfFuel.
Proof.
  unfold isList. destruct (rule s) as [| | [items | f]]; try done.
  by destruct (index items (step s)).
Qed.

Lemma intolerant_fuel s : intolerant s <> OutOfFuel.
Proof.
  unfold intolerant. destruct (rule s) as [| | [items | f]]; try done.
  by destruct (index items (step s)).
Qed.

Lemma land_in_parent_fuel s : land_in_parent s <> OutOfFuel.
Proof.
  unfold land_in_parent. destruct (defined (rule s)); [| done].
  pose proof (isList_fuel s) as H.
  destruct (isList s) as [[] | |]; simpl; try done.
  by destruct (opt_truthy _).
Qed.

(** The fuel given to the two popping loops is never used up: they end
    by themselves, with a state or with a [TypeError]. *)
Lemma unwind_loop_fuel fuel : forall s,
  depth s < fuel -> unwind_loop fuel s <> OutOfFuel.
Proof.
  induction fuel as [| fuel IH]; intros s Hfuel; [lia |].
  simpl. pose proof (intolerant_fuel s) as Hc.
  destruct (intolerant s) as [[] | |]; simpl; try done.
  pose proof (popRule_fuel s) as Hp.
  destruct (popRule s) as [s1 | |] eqn:Hpop; simpl; try done.
  apply IH. apply depth_popRule in Hpop. lia.
Qed.

Lemma advance_loop_fuel fuel : forall s,
  depth s < fuel -> advance_loop fuel s <> OutOfFuel.
Proof.
  induction fuel as [| fuel IH]; intros s Hfuel; [lia |].
  simpl. destruct (completed s); [| done].
  pose proof (popRule_fuel s) as Hp.
  destruct (popRule s) as [s1 | |] eqn:Hpop; simpl; try done.
  pose proof (land_in_parent_fuel s1) as Hl.
  destruct (land_in_parent s1) as [s2 | |] eqn:Hland; simpl; try done.
  apply IH. apply depth_popRule in Hpop. apply land_in_parent_depth in Hland.
  lia.
Qed.

Lemma advanceRule_fuel s b : advanceRule s b <> OutOfFuel.
Proof.
  unfold advanceRule.
  assert (Htail : forall s0 : ParserState Stream Update,
            advance_loop (S (depth (next_step s0))) (next_step s0) <> OutOfFuel)
    by (intros s0; apply advance_loop_fuel; lia).
  pose proof (isList_fuel s) as Hl.
  destruct (isList s) as [[] | |]; cbn [bind]; try done.
  destruct (opt_truthy (current_separator s)).
  - destruct (negb (truthy (needsSeperator (toggle_needsSeperator s))));
      [done |]. by destruct b.
  - by destruct b.
Qed.

Lemma unsuccessful_fuel s : unsuccessful s <> OutOfFuel.
Proof.
  unfold unsuccessful.
  pose proof (unwind_loop_fuel (S (depth s)) s ltac:(lia)) as Hloop.
  destruct (unwind_loop _ s) as [s1 | |]; simpl; try done.
  destruct (defined (rule s1)); [apply advanceRule_fuel | done].
Qed.

Lemma well_formed_popRule s :
  well_formed s -> defined (rule s) = true ->
  exists s', popRule s = Ok s' /\ well_formed s'.
Proof.
  intros [s0 Hno | s0 r prev Hr Hstep Hprev Hwf] Hdef; [congruence |].
  unfold popRule. rewrite Hprev. eexists; split; [done |].
  destruct Hwf as [p Hno | p r' pp Hr' Hstep' Hpp Hwf'].
  - apply wf_bottom. simpl. by rewrite defined_read.
  - eapply wf_frame with (r := r') (prev := pp); simpl;
      rewrite ?index_read; try (by apply read_Val); try done.
    destruct r'; simpl in *; [by rewrite index_read | done].
Qed.

Lemma well_formed_intolerant s :
  well_formed s -> exists b, intolerant s = Ok b.
Proof.
  intros [s0 Hno | s0 r prev Hr Hstep Hprev Hwf]; unfold intolerant.
  - destruct (rule s0); try discriminate; by eexists.
  - rewrite Hr. destruct r as [items | f]; [| by eexists].
    destruct Hstep as [item ->]. by eexists.
Qed.

Lemma intolerant_defined s : intolerant s = Ok true -> defined (rule s) = true.
Proof. unfold intolerant. by destruct (rule s). Qed.

(** The loop of [unsuccessful], on a well-formed stack: it pops while the
    condition holds and stops with the condition false. *)
Lemma unwind_loop_spec fuel : forall s,
  well_formed s -> depth s < fuel ->
  exists n s1,
    unwind_loop fuel s = Ok s1 /\ pops n s s1 /\
    intolerant s1 = Ok false /\ well_formed s1.
Proof.
  induction fuel as [| fuel IH]; intros s Hwf Hfuel; [lia |].
  simpl. destruct (well_formed_intolerant s Hwf) as [[] Hc]; rewrite Hc; simpl.
  - destruct (well_formed_popRule s Hwf (intolerant_defined s Hc))
      as (s1 & Hpop & Hwf1).
    rewrite Hpop. simpl.
    pose proof (depth_popRule s s1 Hpop) as Hd.
    destruct (IH s1 Hwf1 ltac:(lia)) as (n & s2 & Hloop & Hpops & Hstop & Hwf2).
    exists (S n), s2. split; [done |]. split; [| done].
    by eapply pops_S.
  - exists 0, s. repeat split; try done. apply pops_O.
Qed.

Lemma well_formed_linked s : well_formed s -> linked s.
Proof.
  intros [s0 Hno | s0 r prev Hr Hstep Hprev Hwf] Hdef; [congruence |].
  by exists prev.
Qed.

Lemma completed_defined s : completed s = true -> defined (rule s) = true.
Proof. unfold completed. by destruct (rule s). Qed.

Lemma index_succ_in_range (items : list (Item Update)) z item :
  index items (Val (Num z)) = Some item ->
  step_in_range items (Val (Num (z + 1))) = true ->
  is_Some (index items (Val (Num (z + 1)))).
Proof.
  simpl. destruct (z <? 0)%Z eqn:Hz; [discriminate |].
  intros _ Hr. apply Z.ltb_ge in Hz. apply Z.ltb_lt in Hr.
  destruct (z + 1 <? 0)%Z eqn:Hz1; [apply Z.ltb_lt in Hz1; lia |].
  apply lookup_lt_is_Some. lia.
Qed.

(** Not completed, with a step reached by counting up from a valid one:
    the frame is well formed again. *)
Lemma advance_loop_spec fuel : forall s,
  linked s -> depth s < fuel ->
  (forall items, rule s = Val (Seq items) ->
     step_in_range items (step s) = true -> is_Some (index items (step s))) ->
  exists s', advance_loop fuel s = Ok s' /\ well_formed s'.
Proof.
  induction fuel as [| fuel IH]; intros s Hlink Hfuel Hidx; [lia |].
  simpl. destruct (completed s) eqn:Hc.
  - destruct (Hlink (completed_defined s Hc)) as (prev & Hprev & Hwf).
    unfold popRule. rewrite Hprev. simpl.
    set (s1 := set_frame s _ _ _ _ _ _ _).
    assert (Hd : S (depth s1) = depth s).
    { apply depth_popRule. unfold popRule. by rewrite Hprev. }
    destruct Hwf as [p Hno | p r pp Hr Hstep Hpp Hwf'].
    + (* the enclosing object has no rule: the stack is empty *)
      assert (Hno1 : defined (rule s1) = false).
      { subst s1. simpl. by rewrite defined_read. }
      unfold land_in_parent. rewrite Hno1. simpl.
      destruct fuel as [| fuel]; [lia |].
      simpl. unfold completed.
      destruct (rule s1) eqn:Hr1; try discriminate;
        (eexists; split; [done |]; apply wf_bottom; by rewrite Hr1).
    + assert (Hr1 : rule s1 = Val r) by (subst s1; simpl; by apply read_Val).
      assert (Hst1 : step s1 = read (step p)) by done.
      assert (Hp1 : prevState s1 = Val pp) by (subst s1; simpl; by apply read_Val).
      unfold land_in_parent. rewrite Hr1. simpl.
      assert (Hlist : exists b, isList s1 = Ok b).
      { unfold isList. rewrite Hr1. destruct r as [items | f]; [| by eexists].
        rewrite Hst1, index_read. destruct Hstep as [item ->].
        by eexists. }
      destruct Hlist as [b ->]. simpl.
      assert (Hkeep : forall s2, rule s2 = Val r -> step s2 = read (step p) ->
                prevState s2 = Val pp ->
                exists s', advance_loop fuel s2 = Ok s' /\ well_formed s').
      { intros s2 Hr2 Hst2 Hp2. apply IH.
        - intros _. by exists pp.
        - rewrite (depth_unfold s1), Hp1 in Hd.
          rewrite (depth_unfold s2), Hp2. lia.
        - intros items Hitems _. rewrite Hr2 in Hitems. injection Hitems as ->.
          by rewrite Hst2, index_read. }
      destruct b.
      * destruct (opt_truthy (current_separator s1)); apply Hkeep; done.
      * apply IH.
        -- intros _. by exists pp.
        -- rewrite (depth_unfold s1), Hp1 in Hd.
           rewrite (depth_unfold (next_step s1)).
           change (prevState (next_step s1)) with (prevState s1).
           rewrite Hp1. lia.
        -- intros items Hitems Hrange.
           change (rule (next_step s1)) with (rule s1) in Hitems.
           rewrite Hr1 in Hitems. injection Hitems as ->.
           change (step (next_step s1)) with (Val (succ_number (step s1))) in *.
           rewrite Hst1 in *. destruct Hstep as [item Hitem].
           destruct (step p) as [| | [z |]]; try discriminate.
           by eapply index_succ_in_range.
  - eexists; split; [done |].
    unfold completed in Hc. destruct (rule s) as [| | [items | f]] eqn:Hr;
      try discriminate; try (apply wf_bottom; by rewrite Hr).
    apply negb_false_iff in Hc.
    destruct (Hlink ltac:(by rewrite Hr)) as (prev & Hprev & Hwf).
    eapply wf_frame; try done. simpl. by apply Hidx.
Qed.

Lemma advanceRule_well_formed s b :
  well_formed s -> defined (rule s) = true ->
  exists s', advanceRule s b = Ok s' /\ well_formed s'.
Proof.
  intros Hwf Hdef.
  destruct Hwf as [s0 Hno | s r prev Hr Hstep Hprev Hwf']; [congruence |].
  assert (Hwf : well_formed s) by (by eapply wf_frame).
  assert (Htail : forall s0, rule s0 = Val r -> step s0 = step s ->
            prevState s0 = Val prev ->
            exists s', advance_loop (S (depth (next_step s0))) (next_step s0)
                       = Ok s' /\ well_formed s').
  { intros s0 Hr0 Hst0 Hp0. apply advance_loop_spec.
    - intros _. exists prev. by split.
    - lia.
    - intros items Hitems Hrange.
      change (rule (next_step s0)) with (rule s0) in Hitems.
      rewrite Hr0 in Hitems. injection Hitems as ->.
      change (step (next_step s0)) with (Val (succ_number (step s0))) in *.
      rewrite Hst0 in *. destruct Hstep as [item Hitem].
      destruct (step s) as [| | [z |]]; try discriminate.
      by eapply index_succ_in_range. }
  assert (Hsame : forall s0, rule s0 = Val r -> step s0 = step s ->
            prevState s0 = Val prev -> well_formed s0).
  { intros s0 Hr0 Hst0 Hp0. eapply wf_frame; try done. by rewrite Hst0. }
  unfold advanceRule.
  assert (Hlist : exists l, isList s = Ok l).
  { unfold isList. rewrite Hr. destruct r as [items | f]; [| by eexists].
    destruct Hstep as [item ->]. by eexists. }
  destruct Hlist as [l ->]. cbn [bind].
  destruct l; [| by apply Htail].
  destruct (opt_truthy (current_separator s)).
  - destruct (negb (truthy (needsSeperator (toggle_needsSeperator s)))).
    + eexists; split; [done |]. by apply Hsame.
    + destruct b.
      * eexists; split; [done |]. by apply Hsame.
      * by apply Htail.
  - destruct b; [by eexists | by apply Htail].
Qed.

End FrameFacts.

(** ** The token step *)
Section TokenFacts.
Context {Stream RegExp Update : Type}.
Variable host : @HostOps Stream RegExp Update.
Implicit Types state s cache snapshot unwound : ParserState Stream Update.
Implicit Types options : @Options Stream RegExp Update.

Lemma rule_loop_unfold fuel rules token stream s :
  defined (rule s) = true ->
  rule_loop host (S fuel) rules token stream s =
    match expectation token stream s with
    | ExpectRule ruleKind =>
        rule_loop host fuel rules token stream (pushRule rules s ruleKind)
    | ExpectTerminal terminal =>
        if match_ terminal token then
          let* s1 := accept host terminal token s in
          Ok (Some (style terminal), s1)
        else retry host fuel rules token stream s
    | ExpectNothing => retry host fuel rules token stream s
    end.
Proof. intros Hdef. simpl. by rewrite Hdef. Qed.


(** A run of the rule loop that accepts nothing ends with an empty
    [state.rule] and has written frame fields only. *)
Lemma rule_loop_exhausted fuel rules token stream : forall s s',
  rule_loop host fuel rules token stream s = Ok (None, s') ->
  same_globals s s' /\ defined (rule s') = false.
Proof.
  induction fuel as [| fuel IH]; intros s s'.
  - simpl. destruct (defined (rule s)) eqn:Hr; [discriminate |].
    intros [= <-]. split; [apply same_globals_refl | done].
  - destruct (defined (rule s)) eqn:Hr.
    2:{ simpl. rewrite Hr. intros [= <-].
        split; [apply same_globals_refl | done]. }
    rewrite rule_loop_unfold by done.
    assert (Hretry : retry host fuel rules token stream s = Ok (None, s') ->
                     same_globals s s' /\ defined (rule s') = false).
    { unfold retry.
      destruct (unsuccessful s) as [s1 | |] eqn:Hu; simpl; try discriminate.
      intros H. apply IH in H as [H1 H2]. split; [| done].
      eapply same_globals_trans; [by apply unsuccessful_globals | done]. }
    destruct (expectation token stream s) as [k | tm |]; [| | done].
    + intros H. apply IH in H as [H1 H2]. split; [| done].
      eapply same_globals_trans; [apply pushRule_globals | done].
    + destruct (match_ tm token); [| done].
      destruct (accept host tm token s); simpl; discriminate.
Qed.

(** On the path of an unrecognized token [getToken] returns
    ['invalidchar'], leaves in the cache the snapshot written over the
    old cache, and hands back the unwound state overwritten with the
    cache. *)
Lemma getToken_unrecognized options editor fuel cache stream s snapshot token
    stream' unwound :
  Unrecognized host options editor fuel stream s snapshot token stream' unwound ->
  getToken host fuel options editor cache stream s =
    Ok {| ret_style := Some "invalidchar";
          ret_stream := stream';
          ret_state := restoreState (saveState cache snapshot) unwound;
          ret_cache := saveState cache snapshot |}.
Proof.
  intros (Hsnap & Hws & Hc & Hlex & Hloop).
  unfold getToken. unfold snapshot_of in Hsnap.
  destruct (deferred_advance s) as [s1 | |]; simpl in *; try discriminate.
  injection Hsnap as <-.
  destruct (eatWhitespace options stream) as [[] stream1]; simpl in *;
    [discriminate |].
  rewrite Hc, Hlex. simpl. by rewrite Hloop.
Qed.

Lemma held_restore {A : Type} (live old saved : slot A) :
  held saved (assign_slot live (assign_slot old saved)).
Proof. unfold held. by destruct saved. Qed.

Lemma restore_after_save cache snapshot unwound :
  restores_held snapshot (restoreState (saveState cache snapshot) unwound).
Proof. repeat split; apply held_restore. Qed.

Lemma restore_complete cache snapshot unwound :
  has_all_keys snapshot ->
  restoreState (saveState cache snapshot) unwound = snapshot.
Proof.
  intros (h1 & h2 & h3 & h4 & h5 & h6 & h7 & h8 & h9 & h10 & h11).
  destruct snapshot; simpl in *.
  unfold restoreState, saveState, assign; simpl.
  f_equal; match goal with |- assign_slot _ (assign_slot _ ?x) = _ =>
    by destruct x end.
Qed.

(** Where the rollback is exact: a snapshot that holds every key comes
    back whole. *)
Lemma rollback_complete options editor fuel cache stream s snapshot token
    stream' unwound :
  Unrecognized host options editor fuel stream s snapshot token stream' unwound ->
  has_all_keys snapshot ->
  ret_state <$> getToken host fuel options editor cache stream s = Ok snapshot.
Proof.
  intros Hun Hkeys. rewrite (getToken_unrecognized _ _ _ _ _ _ _ _ _ _ Hun).
  simpl. f_equal. by apply restore_complete.
Qed.

(** The style [getToken] returns does not depend on the cache. *)
Lemma getToken_style_ignores_cache options editor fuel cache1 cache2 stream s :
  ret_style <$> getToken host fuel options editor cache1 stream s =
  ret_style <$> getToken host fuel options editor cache2 stream s.
Proof.
  unfold getToken.
  destruct (deferred_advance s) as [s1 | |]; simpl; try done.
  destruct (eatWhitespace options stream) as [[] stream1]; [done |].
  destruct (match_lineComment host editor stream1); [done |].
  destruct (lex host (LexRules options) stream1) as [[token stream2] |]; [| done].
  destruct (rule_loop host fuel _ token stream2 _) as [[[style |] s4] | |];
    done.
Qed.

(** Neither does the state, when the snapshot holds every key. *)
Lemma getToken_state_ignores_cache options editor fuel cache1 cache2 stream s
    snapshot :
  snapshot_of host editor stream s = Ok snapshot ->
  has_all_keys snapshot ->
  ret_state <$> getToken host fuel options editor cache1 stream s =
  ret_state <$> getToken host fuel options editor cache2 stream s.
Proof.
  unfold getToken, snapshot_of.
  destruct (deferred_advance s) as [s1 | |]; simpl; try done.
  intros [= <-] Hkeys.
  destruct (eatWhitespace options stream) as [[] stream1]; [done |].
  destruct (match_lineComment host editor stream1); [done |].
  destruct (lex host (LexRules options) stream1) as [[token stream2] |]; [| done].
  destruct (rule_loop host fuel _ token stream2 _) as [[[style |] s4] | |];
    try done.
  simpl. by rewrite !restore_complete.
Qed.

(** The deferred advance: a state with [needsAdvance] set is first
    advanced, with the flag cleared, and then treated as any other. *)
Lemma getToken_deferred options editor fuel cache stream s :
  truthy (needsAdvance s) = true ->
  getToken host fuel options editor cache stream s =
    (let* s1 := advanceRule (set_needsAdvance false s) true in
     getToken host fuel options editor cache stream s1) /\
  forall s1, advanceRule (set_needsAdvance false s) true = Ok s1 ->
             needsAdvance s1 = Val false.
Proof.
  intros Hflag.
  assert (Hclear : forall s1,
            advanceRule (set_needsAdvance false s) true = Ok s1 ->
            needsAdvance s1 = Val false).
  { intros s1 H. by apply advanceRule_globals in H as (_ & -> & _). }
  split; [| done].
  unfold getToken at 1. unfold deferred_advance at 1. rewrite Hflag.
  destruct (advanceRule (set_needsAdvance false s) true) as [s1 | |] eqn:Hadv;
    simpl; try done.
  unfold getToken, deferred_advance. by rewrite (Hclear s1).
Qed.

(** The separator flag of a list with a separator: set by an accepted
    element, cleared by an accepted separator; the step stays. *)
Lemma advanceRule_toggles_separator s element separator :
  at_separated_list s element separator ->
  advanceRule s true = Ok (toggle_needsSeperator s).
Proof.
  intros (items & Hr & Hitem & _ & Hsep).
  unfold advanceRule, isList, current_separator. rewrite Hr, Hitem. simpl.
  rewrite Hsep. by destruct (truthy (needsSeperator s)).
Qed.

(** A token that is not the awaited separator does not leave the list:
    [unsuccessful] clears the flag and keeps the step, so the same token
    is tried next as an element. *)
Lemma missing_separator_reopens_list s element separator :
  at_separated_list s element separator ->
  truthy (needsSeperator s) = true ->
  unsuccessful s = Ok (set_needsSeperator false s).
Proof.
  intros (items & Hr & Hitem & Hel & Hsep) Hflag.
  unfold unsuccessful. simpl. unfold intolerant.
  rewrite Hr, Hitem. simpl. rewrite Hel. simpl. rewrite Hr. simpl.
  unfold advanceRule, isList, current_separator. rewrite Hr, Hitem. simpl.
  rewrite Hsep. unfold toggle_needsSeperator. by rewrite Hflag.
Qed.

End TokenFacts.

(** ** The stack invariant is kept

    From [startState] on, with a grammar without empty rules, every frame
    of the state has a valid step and an enclosing frame, and [getToken]
    throws no [TypeError]. *)
Section StackInvariant.
Context {Stream RegExp Update : Type}.
Variable host : @HostOps Stream RegExp Update.
Implicit Types state s cache snapshot unwound : ParserState Stream Update.
Implicit Types options : @Options Stream RegExp Update.

Lemma well_formed_same_frame s s' :
  rule s' = rule s -> step s' = step s -> prevState s' = prevState s ->
  well_formed s -> well_formed s'.
Proof.
  intros Hr Hs Hp Hwf. destruct Hwf as [s Hno | s r prev Hr0 Hstep Hprev Hwf].
  - apply wf_bottom. by rewrite Hr.
  - apply wf_frame with (r := r) (prev := prev); congruence.
Qed.

Lemma stack_ok_same_frame s s' :
  rule s' = rule s -> step s' = step s -> prevState s' = prevState s ->
  stack_ok s -> stack_ok s'.
Proof.
  intros Hr Hs Hp [Hwf (k1 & k2 & k3)]. split.
  - by eapply well_formed_same_frame.
  - unfold frame_keys. by rewrite Hr, Hs, Hp.
Qed.

Lemma read_not_Absent {A : Type} (x : slot A) : read x <> Absent.
Proof. by destruct x. Qed.

Lemma popRule_keys s s' : popRule s = Ok s' -> frame_keys s'.
Proof.
  unfold popRule. destruct (prevState s); try discriminate.
  intros [= <-]. repeat split; apply read_not_Absent.
Qed.

Lemma next_step_keys s : frame_keys s -> frame_keys (next_step s).
Proof. intros (k1 & k2 & k3). by repeat split. Qed.

Lemma toggle_keys s : frame_keys s -> frame_keys (toggle_needsSeperator s).
Proof. intros (k1 & k2 & k3). by repeat split. Qed.

Lemma land_in_parent_keys s s' :
  frame_keys s -> land_in_parent s = Ok s' -> frame_keys s'.
Proof.
  intros Hk. unfold land_in_parent. destruct (defined (rule s)).
  - destruct (isList s) as [[] | |]; simpl; try discriminate.
    + destruct (opt_truthy _); intros [= <-]; [by apply toggle_keys | done].
    + intros [= <-]. by apply next_step_keys.
  - by intros [= <-].
Qed.

Lemma advance_loop_keys fuel : forall s s',
  frame_keys s -> advance_loop fuel s = Ok s' -> frame_keys s'.
Proof.
  induction fuel as [| fuel IH]; intros s s' Hk; simpl.
  - destruct (completed s); [discriminate | by intros [= <-]].
  - destruct (completed s); [| by intros [= <-]].
    destruct (popRule s) as [s1 | |] eqn:Hpop; simpl; try discriminate.
    destruct (land_in_parent s1) as [s2 | |] eqn:Hland; simpl; try discriminate.
    apply IH. eapply land_in_parent_keys; [| done]. by eapply popRule_keys.
Qed.

Lemma advanceRule_keys s b s' :
  frame_keys s -> advanceRule s b = Ok s' -> frame_keys s'.
Proof.
  intros Hk. unfold advanceRule.
  assert (Htail : forall s0, frame_keys s0 ->
    advance_loop (S (depth (next_step s0))) (next_step s0) = Ok s' ->
    frame_keys s').
  { intros s0 Hk0. apply advance_loop_keys. by apply next_step_keys. }
  destruct (isList s) as [[] | |]; cbn [bind]; try discriminate.
  - destruct (opt_truthy (current_separator s)).
    + destruct (negb (truthy (needsSeperator (toggle_needsSeperator s)))).
      * intros [= <-]. by apply toggle_keys.
      * destruct b; [intros [= <-]; by apply toggle_keys |].
        apply Htail. by apply toggle_keys.
    + destruct b; [by intros [= <-] | by apply Htail].
  - by apply Htail.
Qed.

(** [advanceRule] on the invariant: it returns, and keeps it. *)
Lemma advanceRule_stack_ok s b :
  stack_ok s -> exists s', advanceRule s b = Ok s' /\ stack_ok s'.
Proof.
  intros [Hwf Hk]. destruct (defined (rule s)) eqn:Hdef.
  - destruct (advanceRule_well_formed s b Hwf Hdef) as (s' & Hadv & Hwf').
    exists s'. split; [done |]. split; [done |]. by eapply advanceRule_keys.
  - assert (Hno : forall s0 : ParserState Stream Update,
              rule s0 = rule s -> completed s0 = false).
    { intros s0 Hr. unfold completed. rewrite Hr. by destruct (rule s). }
    exists (next_step s).
    unfold advanceRule, isList.
    destruct (rule s) as [| | r] eqn:Hr; try discriminate; cbn [bind];
      simpl; rewrite (Hno (next_step s)) by (by rewrite <- Hr);
      (split; [done |]);
      (split; [apply wf_bottom; simpl; by rewrite Hr | by apply next_step_keys]).
Qed.

Lemma unsuccessful_stack_ok s :
  stack_ok s -> exists s', unsuccessful s = Ok s' /\ stack_ok s'.
Proof.
  intros [Hwf Hk].
  destruct (unwind_loop_spec (S (depth s)) s Hwf ltac:(lia))
    as (n & s1 & Hloop & Hpops & _ & Hwf1).
  assert (Hk1 : frame_keys s1).
  { destruct Hpops as [| n s0 s2 s3 _ Hpop Hrest]; [done |].
    clear Hloop Hwf Hk Hwf1.
    apply popRule_keys in Hpop.
    induction Hrest as [| n s2 s3 s4 _ Hpop' _ IH]; [done |].
    apply IH. by eapply popRule_keys. }
  unfold unsuccessful. rewrite Hloop. simpl.
  destruct (defined (rule s1)).
  - by apply advanceRule_stack_ok.
  - by exists s1.
Qed.

Lemma assign_emptyObject s : assign emptyObject s = s.
Proof.
  destruct s as [a b c d e f g h i j k]. unfold assign. simpl.
  by f_equal; match goal with |- assign_slot _ ?x = _ => destruct x end.
Qed.

Lemma pushRule_stack_ok rules s k :
  proper_grammar rules -> well_formed s -> stack_ok (pushRule rules s k).
Proof.
  intros Hg Hwf. split.
  - unfold pushRule. destruct (rules !! k) as [r |] eqn:Hlook.
    + eapply wf_frame with (r := r) (prev := assign emptyObject s);
        try done; [| by rewrite assign_emptyObject].
      destruct r as [[| item items] | f]; try done.
      * by destruct (Hg k).
      * by exists item.
    + by apply wf_bottom.
  - unfold pushRule. repeat split; try done. simpl.
    by destruct (rules !! k).
Qed.

Lemma accept_stack_ok terminal token s :
  sound_updates host -> stack_ok s ->
  exists s', accept host terminal token s = Ok s' /\ stack_ok s'.
Proof.
  intros Hup Hok.
  assert (Hok1 : stack_ok (updated host terminal token s)).
  { unfold updated. destruct (update terminal); [by apply Hup | done]. }
  unfold accept. destruct (is_punctuation token).
  - by apply advanceRule_stack_ok.
  - eexists. split; [done |].
    by apply (stack_ok_same_frame (updated host terminal token s)).
Qed.

(** The rule loop throws no [TypeError] and keeps the invariant. *)
Lemma rule_loop_stack_ok fuel rules token stream :
  proper_grammar rules -> sound_updates host ->
  forall s, stack_ok s ->
    match rule_loop host fuel rules token stream s with
    | Ok (_, s') => stack_ok s'
    | TypeError => False
    | OutOfFuel => True
    end.
Proof.
  intros Hg Hup. induction fuel as [| fuel IH]; intros s Hok.
  - simpl. by destruct (defined (rule s)).
  - destruct (defined (rule s)) eqn:Hdef; [| simpl; by rewrite Hdef].
    rewrite rule_loop_unfold by done.
    assert (Hretry : match retry host fuel rules token stream s with
                     | Ok (_, s') => stack_ok s'
                     | TypeError => False
                     | OutOfFuel => True
                     end).
    { unfold retry. destruct (unsuccessful_stack_ok s Hok) as (s1 & -> & Hok1).
      simpl. by apply IH. }
    destruct (expectation token stream s) as [k | tm |]; [| | done].
    + apply IH. apply pushRule_stack_ok; [done | by destruct Hok].
    + destruct (match_ tm token); [| done].
      by destruct (accept_stack_ok tm token s Hup Hok) as (s1 & -> & Hok1).
Qed.

Lemma track_indentation_frame token s :
  rule (track_indentation token s) = rule s /\
  step (track_indentation token s) = step s /\
  prevState (track_indentation token s) = prevState s.
Proof.
  unfold track_indentation.
  destruct (is_punctuation token); [| done].
  destruct (opens_bracket _); [done |].
  destruct (closes_bracket _); [| done].
  destruct (last _) as [top |]; [| done].
  by destruct (number_lt top _).
Qed.

Lemma startState_stack_ok options :
  proper_grammar (ParseRules options) -> stack_ok (startState options).
Proof.
  intros Hg. unfold startState. apply pushRule_stack_ok; [done |].
  by apply wf_bottom.
Qed.

Lemma deferred_advance_stack_ok s :
  stack_ok s -> exists s1, deferred_advance s = Ok s1 /\ stack_ok s1.
Proof.
  intros Hok. unfold deferred_advance. destruct (truthy (needsAdvance s)).
  - apply advanceRule_stack_ok. by apply (stack_ok_same_frame s).
  - by exists s.
Qed.

Lemma remember_indentation_stack_ok editor stream s :
  stack_ok s -> stack_ok (remember_indentation host editor stream s).
Proof.
  intros Hok. unfold remember_indentation. destruct (sol host stream); [| done].
  by apply (stack_ok_same_frame s).
Qed.

(** The restore puts the saved frame back. *)
Lemma restore_frame cache snapshot unwound :
  stack_ok snapshot ->
  stack_ok (restoreState (saveState cache snapshot) unwound).
Proof.
  intros Hok. apply (stack_ok_same_frame snapshot); [| | | done];
    destruct Hok as [_ (k1 & k2 & k3)]; by apply held_restore.
Qed.

(** From a state that satisfies the invariant, [getToken] throws no
    [TypeError], and the state it hands back satisfies the invariant. *)
Lemma getToken_stack_ok options editor fuel cache stream s :
  proper_grammar (ParseRules options) -> sound_updates host -> stack_ok s ->
  match getToken host fuel options editor cache stream s with
  | Ok r => stack_ok (ret_state r)
  | TypeError => False
  | OutOfFuel => True
  end.
Proof.
  intros Hg Hup Hok. unfold getToken.
  destruct (deferred_advance_stack_ok s Hok) as (s1 & -> & Hok1). simpl.
  pose proof (remember_indentation_stack_ok editor stream s1 Hok1) as Hok2.
  destruct (eatWhitespace options stream) as [[] stream1]; [done |].
  destruct (match_lineComment host editor stream1); [done |].
  destruct (lex host (LexRules options) stream1) as [[token stream2] |];
    [| done].
  set (s2 := remember_indentation host editor stream s1) in *.
  assert (Hok3 : stack_ok (track_indentation token s2)).
  { destruct (track_indentation_frame token s2) as (e1 & e2 & e3).
    by apply (stack_ok_same_frame s2). }
  pose proof (rule_loop_stack_ok fuel (ParseRules options) token stream2 Hg Hup
                _ Hok3) as Hloop.
  destruct (rule_loop host fuel _ token stream2 _) as [[[style |] s4] | |];
    simpl; try done.
  by apply restore_frame.
Qed.

End StackInvariant.

(** ** Terminals on the heap *)
Module RuleObjectsFacts.
Import RuleObjects.

Lemma every_mono (test1 test2 : loc -> option bool) exclusions b :
  (forall e c, test1 e = Some c -> test2 e = Some c) ->
  every test1 exclusions = Some b -> every test2 exclusions = Some b.
Proof.
  intros Hle. induction exclusions as [| e rest IH]; simpl; [done |].
  destruct (test1 e) as [[] |] eqn:He; try discriminate.
  - rewrite (Hle _ _ He). apply IH.
  - by rewrite (Hle _ _ He).
Qed.

Lemma every_true (test : loc -> option bool) exclusions :
  every test exclusions = Some true <->
  Forall (fun e => test e = Some true) exclusions.
Proof.
  induction exclusions as [| e rest IH]; simpl.
  - split; [constructor | done].
  - destruct (test e) as [[] |] eqn:He.
    + rewrite IH. split; [by constructor | by inversion 1].
    + split; [done | inversion 1; congruence].
    + split; [done | inversion 1; congruence].
Qed.

(** More fuel does not change what a call returns. *)
Lemma call_mono n : forall m heap f token b,
  n <= m -> call n heap f token = Some b -> call m heap f token = Some b.
Proof.
  induction n as [| n IH]; intros m heap f token b Hle; [done |].
  destruct m as [| m]; [lia |]. simpl.
  destruct f as [test | ruleMatch exclusions]; [done |].
  destruct (call n heap ruleMatch token) as [[] |] eqn:Hrule; try discriminate.
  - rewrite (IH m _ _ _ _ ltac:(lia) Hrule).
    apply every_mono. intros e c.
    destruct (heap !! e) as [exclusion |]; [| done].
    destruct (call n heap (match_ exclusion) token) as [c' |] eqn:Hc;
      [| done].
    by rewrite (IH m _ _ _ _ ltac:(lia) Hc).
  - by rewrite (IH m _ _ _ _ ltac:(lia) Hrule).
Qed.

(** Finitely many calls that return all return with one common fuel. *)
Lemma common_fuel heap token exclusions :
  Forall (fun e => matches heap e token false) exclusions ->
  exists fuel,
    Forall (fun e => exists exclusion, heap !! e = Some exclusion /\
                     call fuel heap (match_ exclusion) token = Some false)
           exclusions.
Proof.
  induction 1 as [| e rest (exclusion & Hlook & n & Hcall) _ (m & IH)].
  - exists 0. constructor.
  - exists (n `max` m). constructor.
    + exists exclusion. split; [done |].
      eapply call_mono; [| done]. lia.
    + eapply Forall_impl; [done |].
      intros e' (ex' & Hlook' & Hcall'). exists ex'. split; [done |].
      eapply call_mono; [| done]. lia.
Qed.

(** The closure [butNot] installs returns [true] exactly when the old
    function returns [true] and every exclusion's [match] returns
    [false]. *)
Lemma guarded_returns_true heap ruleMatch exclusions token :
  returns heap (Guarded ruleMatch exclusions) token true <->
  returns heap ruleMatch token true /\
  Forall (fun e => matches heap e token false) exclusions.
Proof.
  split.
  - intros [[| n] Hcall]; [done |]. simpl in Hcall.
    destruct (call n heap ruleMatch token) as [[] |] eqn:Hrule;
      try discriminate.
    split; [by exists n |].
    apply every_true in Hcall. eapply Forall_impl; [done |].
    intros e He. simpl in He.
    destruct (heap !! e) as [exclusion |] eqn:Hlook; [| done].
    exists exclusion. split; [done |]. exists n.
    by destruct (call n heap (match_ exclusion) token) as [[] |].
  - intros [[n Hrule] Hex].
    destruct (common_fuel _ _ _ Hex) as [m Hm].
    exists (S (n `max` m)). simpl.
    rewrite (call_mono n (n `max` m) _ _ _ _ ltac:(lia) Hrule).
    apply every_true. eapply Forall_impl; [done |].
    intros e (exclusion & -> & Hcall). simpl.
    by rewrite (call_mono m (n `max` m) _ _ _ _ ltac:(lia) Hcall).
Qed.

(** C10.  [butNot(rule, exclusions)] returns the reference it was given
    and replaces the [match] of that one object in place: every other
    object of the heap is as before, the object's [style] is unchanged,
    and from then on, through any reference to the object, [match]
    returns [true] for a token exactly when the original function returns
    [true] for it and the [match] of every exclusion returns [false]. *)
Theorem butNot_augments_in_place heap rule exclusions original :
  heap !! rule = Some original ->
  exists heap' augmented,
    butNot heap rule exclusions = Some (heap', rule) /\
    (forall other, other <> rule -> heap' !! other = heap !! other) /\
    (forall alias, alias = rule -> heap' !! alias = Some augmented) /\
    style augmented = style original /\
    forall token,
      matches heap' rule token true <->
      returns heap' (match_ original) token true /\
      Forall (fun e => matches heap' e token false) exclusions.
Proof.
  intros Hlook. unfold butNot. rewrite Hlook.
  eexists _, _. split; [done |].
  split; [intros other Hne; by rewrite lookup_insert_ne |].
  split; [intros alias ->; by rewrite lookup_insert_eq |].
  split; [done |].
  intros token. unfold matches at 1. rewrite lookup_insert_eq.
  rewrite <- guarded_returns_true. split.
  - by intros (object & [= <-] & Hret).
  - intros Hret. by eexists.
Qed.

(** The theorem at [butNot(t('Name'), [keyword 'on', keyword 'true'])]. *)
Lemma butNot_augments_in_place_witness :
  exists heap' augmented,
    butNot Demo.terminals 0 [1; 2] = Some (heap', 0) /\
    (forall other, other <> 0 -> heap' !! other = Demo.terminals !! other) /\
    (forall alias, alias = 0 -> heap' !! alias = Some augmented) /\
    style augmented = Some "variable" /\
    forall token,
      matches heap' 0 token true <->
      returns heap' (Native (fun token => String.eqb (Token.kind token) "Name"))
              token true /\
      Forall (fun e => matches heap' e token false) [1; 2].
Proof.
  apply (butNot_augments_in_place Demo.terminals 0 [1; 2]
           {| style := Some "variable";
              match_ := Native (fun token => String.eqb (Token.kind token) "Name") |}).
  vm_compute. reflexivity.
Defined.

End RuleObjectsFacts.

(** ** The claims about the token step *)
Section Claims.
Context {Stream RegExp Update : Type}.
Variable host : @HostOps Stream RegExp Update.
Implicit Types state s cache snapshot unwound : ParserState Stream Update.
Implicit Types options : @Options Stream RegExp Update.

(** C2, as the code has it.  There is one snapshot cache for the whole
    module, shared by every parser [onlineParser] makes; a [getToken] call
    saves into it and restores from it before it returns.  Whatever the
    cache held when the call began (left there by this parser or by
    another), a call that ends in an unrecognized token returns
    ['invalidchar'], leaves the snapshot written over the old cache, and
    has written back, for every field the state held at the save, the
    value saved in this same call. *)
Theorem restore_writes_back_own_save options editor fuel cache stream s
    snapshot token stream' unwound :
  Unrecognized host options editor fuel stream s snapshot token stream' unwound ->
  exists r,
    getToken host fuel options editor cache stream s = Ok r /\
    ret_style r = Some "invalidchar" /\
    ret_cache r = saveState cache snapshot /\
    restores_held snapshot (ret_state r).
Proof.
  intros Hun. eexists. split; [by eapply getToken_unrecognized |].
  simpl. repeat split; apply held_restore.
Qed.

(** C3, as the code has it.  The bracket bookkeeping runs after the save
    and before the rule loop: the loop starts from the state with the new
    [levels].  When the token is then unrecognized, the restore writes the
    saved [levels] and [indentLevel] back: with both fields on the state at
    the save, the call returns them as they were before the token. *)
Theorem bookkeeping_rolled_back options editor fuel cache stream s
    snapshot token stream' unwound l n :
  Unrecognized host options editor fuel stream s snapshot token stream' unwound ->
  levels snapshot = Val l ->
  indentLevel snapshot = Val n ->
  exists r,
    getToken host fuel options editor cache stream s = Ok r /\
    ret_style r = Some "invalidchar" /\
    levels (ret_state r) = Val l /\
    indentLevel (ret_state r) = Val n /\
    (is_punctuation token = true ->
     opens_bracket (Token.value token) = true ->
     levels (track_indentation token snapshot) = Val (l ++ [succ_number (Val n)])%list) /\
    (is_punctuation token = true ->
     opens_bracket (Token.value token) = false ->
     closes_bracket (Token.value token) = true ->
     levels (track_indentation token snapshot) = Val (removelast l)).
Proof.
  intros Hun Hl Hn. eexists. split; [by eapply getToken_unrecognized |].
  simpl. rewrite Hl, Hn. repeat split.
  - intros Hp Ho. unfold track_indentation, levels_or_empty.
    by rewrite Hp, Ho, Hl, Hn.
  - intros Hp Ho Hc. unfold track_indentation, levels_or_empty.
    rewrite Hp, Ho, Hc, Hl. simpl.
    by destruct (last (removelast l)) as [top |];
      [destruct (number_lt top _) |].
Qed.

(** C4.  When the terminal the frame expects matches the token, the rule
    loop runs the terminal's [update] and returns the terminal's style;
    for a punctuator it advances the rule in the same call and leaves
    [needsAdvance] as it was, for any other token it does not advance and
    sets [needsAdvance].  A [getToken] call on a state with [needsAdvance]
    set first clears the flag and advances, and then goes on as it would
    on the advanced state. *)
Theorem deferred_advance_protocol fuel rules token stream s terminal :
  defined (rule s) = true ->
  expectation token stream s = ExpectTerminal terminal ->
  match_ terminal token = true ->
  (is_punctuation token = true ->
   rule_loop host (S fuel) rules token stream s =
     (let* s1 := advanceRule (updated host terminal token s) true in
      Ok (Some (style terminal), s1)) /\
   forall s1, advanceRule (updated host terminal token s) true = Ok s1 ->
              needsAdvance s1 = needsAdvance (updated host terminal token s)) /\
  (is_punctuation token = false ->
   rule_loop host (S fuel) rules token stream s =
     Ok (Some (style terminal),
         set_needsAdvance true (updated host terminal token s))) /\
  (forall fuel' options editor cache stream' s',
     truthy (needsAdvance s') = true ->
     getToken host fuel' options editor cache stream' s' =
       (let* s1 := advanceRule (set_needsAdvance false s') true in
        getToken host fuel' options editor cache stream' s1) /\
     forall s1, advanceRule (set_needsAdvance false s') true = Ok s1 ->
                needsAdvance s1 = Val false).
Proof.
  intros Hdef Hexp Hmatch.
  rewrite rule_loop_unfold by done. rewrite Hexp, Hmatch. unfold accept.
  split; [| split].
  - intros ->. split; [done |].
    intros s1 H. by apply advanceRule_globals in H as (_ & -> & _).
  - by intros ->.
  - intros. by apply getToken_deferred.
Qed.

(** C5, as the code has it.  A call that consumes whitespace or a line
    comment returns ['ws'] or ['comment'], leaves the cache alone and runs
    neither the bookkeeping nor the rule loop.  The state it hands back is
    the state after the two steps that come before the whitespace test:
    the deferred advance, and the assignment of [indentLevel] at the start
    of a line.  With [needsAdvance] unset and the stream inside a line,
    that is the state as it came. *)
Theorem whitespace_and_comment_step options editor fuel cache stream s :
  (fst (eatWhitespace options stream) = true ->
   getToken host fuel options editor cache stream s =
     (let* s1 := snapshot_of host editor stream s in
      Ok {| ret_style := Some "ws";
            ret_stream := snd (eatWhitespace options stream);
            ret_state := s1;
            ret_cache := cache |})) /\
  (forall stream2,
     fst (eatWhitespace options stream) = false ->
     match_lineComment host editor (snd (eatWhitespace options stream)) =
       Some stream2 ->
     getToken host fuel options editor cache stream s =
       (let* s1 := snapshot_of host editor stream s in
        Ok {| ret_style := Some "comment";
              ret_stream := skipToEnd host stream2;
              ret_state := s1;
              ret_cache := cache |})) /\
  (snapshot_of host editor stream s =
     (let* s1 := deferred_advance s in
      Ok (remember_indentation host editor stream s1))) /\
  (truthy (needsAdvance s) = false -> sol host stream = false ->
   snapshot_of host editor stream s = Ok s).
Proof.
  unfold getToken, snapshot_of. split; [| split; [| split]].
  - intros Hws. destruct (deferred_advance s); simpl; try done.
    by destruct (eatWhitespace options stream) as [[] ?].
  - intros stream2 Hws Hc. destruct (deferred_advance s); simpl; try done.
    destruct (eatWhitespace options stream) as [[] ?]; simpl in *; [done |].
    by rewrite Hc.
  - done.
  - intros Hflag Hsol. unfold deferred_advance, remember_indentation.
    by rewrite Hflag, Hsol.
Qed.










(** C9, as the code has it.  [startState()] returns a fresh object whose
    own field outside the frame is [level = 0]; it has no [levels], no
    [indentLevel] and no [needsAdvance] key ([getToken] reads the missing
    [levels] as the empty list).  The root frame is pushed on it for
    ['Document'] at step 0, with [name] and [type] null, the separator
    flag off, the rule looked up in [ParseRules], and beneath it the
    object [{ level: 0 }]. *)
Theorem startState_fields options :
  level (startState options) = Val (Num 0) /\
  levels (startState options) = Absent /\
  indentLevel (startState options) = Absent /\
  needsAdvance (startState options) = Absent /\
  levels_or_empty (startState options) = [] /\
  kind (startState options) = Val "Document" /\
  step (startState options) = Val (Num 0) /\
  name (startState options) = Val None /\
  type (startState options) = Val None /\
  needsSeperator (startState options) = Val false /\
  rule (startState options) =
    match ParseRules options !! "Document" with
    | Some r => Val r
    | None => Undefined
    end /\
  prevState (startState options) =
    Val (mkState (Val (Num 0)) Absent Absent Absent Absent Absent Absent
                 Absent Absent Absent Absent) /\
  depth (startState options) = 1.
Proof. by repeat split. Qed.

End Claims.

(** ** The scenarios, run *)
Module Scenarios.
Import Demo.

Lemma fresh_well_formed : well_formed fresh.
Proof.
  eapply wf_frame.
  - reflexivity.
  - eexists. reflexivity.
  - reflexivity.
  - apply wf_bottom. reflexivity.
Qed.

Lemma numberList_proper : proper_grammar numberList.
Proof.
  intros k. unfold numberList.
  destruct (decide (k = "Document")) as [-> | Hne].
  - by rewrite lookup_singleton_eq.
  - by rewrite lookup_singleton_ne.
Qed.

Lemma host_sound_updates : sound_updates host.
Proof. intros [] s token Hok. by apply (stack_ok_same_frame s). Qed.

(** The start state of the number-list parser satisfies the stack
    invariant. *)
Lemma fresh_stack_ok : stack_ok fresh.
Proof. apply startState_stack_ok, numberList_proper. Qed.

(** [(] as the first token of a fresh parser is unrecognized. *)
Lemma first_paren_unrecognized :
  Unrecognized host numberListOptions editor 20 (line 0 "(") fresh
    (set_indentLevel (Num 0) fresh) open_paren (moved (line 0 "(") EmptyString)
    (unwound_of (rule_loop host 20 numberList open_paren (moved (line 0 "(") EmptyString)
                   (track_indentation open_paren (set_indentLevel (Num 0) fresh)))).
Proof. repeat split; vm_compute; reflexivity. Qed.

(** [(] after [[] is unrecognized. *)
Lemma paren_after_open_unrecognized :
  Unrecognized host numberListOptions editor 20 (at_text "(") after_open
    after_open open_paren (at_text EmptyString)
    (unwound_of (rule_loop host 20 numberList open_paren (at_text EmptyString)
                   (track_indentation open_paren after_open))).
Proof. repeat split; vm_compute; reflexivity. Qed.

(** C1, at the input where the code departs from it: a fresh parser whose
    first token is [(].  The token is lexed and no frame accepts it;
    [getToken] returns ['invalidchar'], but the state it hands back has
    [levels = [1]], while the state saved before the token had no
    [levels]: the restore has nothing to write over the bookkeeping. *)
Example first_bracket_survives_rollback :
  snapshot_of host editor (line 0 "(") fresh = Ok (set_indentLevel (Num 0) fresh) /\
  levels (set_indentLevel (Num 0) fresh) = Absent /\
  ret_style <$> getToken host 20 numberListOptions editor emptyObject
                         (line 0 "(") fresh = Ok (Some "invalidchar") /\
  levels <$> (ret_state <$> getToken host 20 numberListOptions editor emptyObject
                                     (line 0 "(") fresh) = Ok (Val [Num 1]) /\
  ret_state <$> getToken host 20 numberListOptions editor emptyObject
                         (line 0 "(") fresh <> Ok (set_indentLevel (Num 0) fresh).
Proof.
  repeat split; try (vm_compute; reflexivity).
  intros H.
  assert (Hl : levels <$> (ret_state <$> getToken host 20 numberListOptions editor
                             emptyObject (line 0 "(") fresh) = Ok Absent)
    by (by rewrite H).
  vm_compute in Hl. discriminate.
Qed.

(** C2 as stated fails: parser A reads [,] and then [\]]; on its own its
    second call hands back [levels = []], with two calls of parser B
    placed between its two calls it hands back [levels = [1]], the value
    parser B saved. *)
Lemma shared_cache_counterexample :
  levels <$> (ret_state <$> parserA_alone) = Ok (Val []) /\
  levels <$> (ret_state <$> parserA_interleaved) = Ok (Val [Num 1]) /\
  levels <$> (ret_cache <$> (let* a1 := parserA_first in
                             parserB_between (ret_cache a1))) = Ok (Val [Num 1]) /\
  ret_state <$> parserA_alone <> ret_state <$> parserA_interleaved.
Proof.
  repeat split; try (vm_compute; reflexivity).
  intros H.
  assert (Hl : levels <$> (ret_state <$> parserA_alone) =
               levels <$> (ret_state <$> parserA_interleaved))
    by (by rewrite H).
  vm_compute in Hl. discriminate.
Qed.

Lemma restore_writes_back_own_save_witness :
  exists r,
    getToken host 20 numberListOptions editor emptyObject (line 0 "(") fresh = Ok r /\
    ret_style r = Some "invalidchar" /\
    ret_cache r = saveState emptyObject (set_indentLevel (Num 0) fresh) /\
    restores_held (set_indentLevel (Num 0) fresh) (ret_state r).
Proof.
  exact (restore_writes_back_own_save host numberListOptions editor 20
           emptyObject (line 0 "(") fresh _ _ _ _ first_paren_unrecognized).
Defined.

(** C3 as stated fails: after [[] the state has [levels = [1]]; the
    bookkeeping for a following [(] makes it [[1; 1]] before the rule loop
    runs, the token is unrecognized, and the state handed back has
    [levels = [1]] again. *)
Lemma bookkeeping_undone_counterexample :
  levels after_open = Val [Num 1] /\
  levels (track_indentation open_paren after_open) = Val [Num 1; Num 1] /\
  ret_style <$> getToken host 20 numberListOptions editor emptyObject
                         (at_text "(") after_open = Ok (Some "invalidchar") /\
  levels <$> (ret_state <$> getToken host 20 numberListOptions editor emptyObject
                                     (at_text "(") after_open) = Ok (Val [Num 1]).
Proof. repeat split; vm_compute; reflexivity. Qed.

Lemma bookkeeping_rolled_back_witness :
  levels after_open = Val [Num 1] /\
  indentLevel after_open = Val (Num 0) /\
  exists r,
    getToken host 20 numberListOptions editor emptyObject (at_text "(") after_open
      = Ok r /\
    ret_style r = Some "invalidchar" /\
    levels (ret_state r) = Val [Num 1] /\
    indentLevel (ret_state r) = Val (Num 0) /\
    (is_punctuation open_paren = true ->
     opens_bracket (Token.value open_paren) = true ->
     levels (track_indentation open_paren after_open) =
       Val ([Num 1] ++ [succ_number (Val (Num 0))])%list) /\
    (is_punctuation open_paren = true ->
     opens_bracket (Token.value open_paren) = false ->
     closes_bracket (Token.value open_paren) = true ->
     levels (track_indentation open_paren after_open) = Val (removelast [Num 1])).
Proof.
  split; [vm_compute; reflexivity |]. split; [vm_compute; reflexivity |].
  apply (bookkeeping_rolled_back host numberListOptions editor 20 emptyObject
           (at_text "(") after_open after_open open_paren (at_text EmptyString) _
           [Num 1] (Num 0) paren_after_open_unrecognized);
    vm_compute; reflexivity.
Defined.

Lemma deferred_advance_protocol_witness :
  defined (rule after_open) = true /\
  expectation one (at_text EmptyString) after_open = ExpectTerminal number_terminal /\
  match_ number_terminal one = true /\
  (is_punctuation one = false ->
   rule_loop host 20 numberList one (at_text EmptyString) after_open =
     Ok (Some (style number_terminal),
         set_needsAdvance true (updated host number_terminal one after_open))).
Proof.
  assert (H1 : defined (rule after_open) = true) by (vm_compute; reflexivity).
  assert (H2 : expectation one (at_text EmptyString) after_open =
               ExpectTerminal number_terminal) by (vm_compute; reflexivity).
  assert (H3 : match_ number_terminal one = true) by reflexivity.
  split; [exact H1 |]. split; [exact H2 |]. split; [exact H3 |].
  exact (proj1 (proj2 (deferred_advance_protocol host 19 numberList one
                         (at_text EmptyString) after_open number_terminal H1 H2 H3))).
Defined.

(** C5 as stated fails: the call that consumes the blank after [[1]
    returns ['ws'] and performs the advance deferred by [1]:
    [needsAdvance] goes from true to false and the list now awaits its
    separator.  At the start of a line a whitespace call sets
    [indentLevel]. *)
Lemma whitespace_mutates_counterexample :
  needsAdvance after_one = Val true /\
  needsSeperator after_one = Val false /\
  ret_style <$> getToken host 20 numberListOptions editor emptyObject
                         (at_text " 2") after_one = Ok (Some "ws") /\
  needsAdvance <$> (ret_state <$> getToken host 20 numberListOptions editor
                      emptyObject (at_text " 2") after_one) = Ok (Val false) /\
  needsSeperator <$> (ret_state <$> getToken host 20 numberListOptions editor
                        emptyObject (at_text " 2") after_one) = Ok (Val true) /\
  indentLevel fresh = Absent /\
  indentLevel <$> (ret_state <$> getToken host 20 numberListOptions editor
                     emptyObject (line 4 "  [") fresh) = Ok (Val (Num 2)).
Proof. repeat split; vm_compute; reflexivity. Qed.

Lemma whitespace_and_comment_step_witness :
  fst (eatWhitespace numberListOptions (at_text " 2")) = true /\
  getToken host 20 numberListOptions editor emptyObject (at_text " 2") after_open =
    Ok {| ret_style := Some "ws";
          ret_stream := at_text "2";
          ret_state := after_open;
          ret_cache := emptyObject |}.
Proof.
  split; [vm_compute; reflexivity |].
  rewrite (proj1 (whitespace_and_comment_step host numberListOptions editor 20
                    emptyObject (at_text " 2") after_open));
    vm_compute; reflexivity.
Defined.




(** C7, at the input where the code departs from it: in
    [list(t('Number'), p(','))] the tokens [1] and [2], with no comma
    between them, are both accepted as elements. *)
Example two_elements_in_a_row :
  styles (tokenize 10 20 numberListOptions emptyObject (line 0 "[1 2") fresh) =
    Ok [Some "punctuation"; Some "number"; Some "ws"; Some "number"].
Proof. vm_compute. reflexivity. Qed.

(** C8, at the input where the code departs from it.  One pass over
    [a\]((] leaves [levels = []] after the unrecognized [\]].  Parsing
    [\]((] again from a copy of the state the pass had after [a], on the
    cache as the pass left it, returns the same styles but leaves
    [levels = [1]] after [\]], and a different [levels] from there on. *)
Example restart_depends_on_cache :
  styles one_pass =
    Ok [Some "variable"; Some "invalidchar"; Some "punctuation";
        Some "punctuation"] /\
  styles resumed =
    Ok [Some "invalidchar"; Some "punctuation"; Some "punctuation"] /\
  levels (state_of (call_nr 0 one_pass)) = Absent /\
  levels (state_of (call_nr 1 one_pass)) = Val [] /\
  levels (state_of (call_nr 0 resumed)) = Val [Num 1] /\
  levels (state_of (call_nr 3 one_pass)) = Val [Num 1; Num 1] /\
  levels (state_of (call_nr 2 resumed)) = Val [Num 1; Num 1; Num 1].
Proof. repeat split; vm_compute; reflexivity. Qed.

(** C9 as stated fails: the state [startState()] returns has neither a
    [levels] nor an [indentLevel] field. *)
Lemma startState_counterexample :
  ~ (levels (startState numberListOptions) = Val [] /\
     indentLevel (startState numberListOptions) = Val (Num 0)).
Proof. intros [H _]. vm_compute in H. discriminate. Qed.

End Scenarios.

(** * Further properties of the parser *)
Section MoreFrameFacts.
Context {Stream Update : Type}.
Implicit Types state s : ParserState Stream Update.

Lemma read_held {A : Type} (x : slot A) : x <> Absent -> read x = x.
Proof. by destruct x. Qed.

(** X4.  [popRule] undoes [pushRule]: on a state that has the seven frame
    keys, pushing any rule makes the stack one frame deeper, and popping
    it gives the state back, field for field. *)
Theorem pop_after_push (rules : gmap string (RuleDef Stream Update)) s k :
  whole_frame s ->
  depth (pushRule rules s k) = S (depth s) /\
  popRule (pushRule rules s k) = Ok s.
Proof.
  intros (h1 & h2 & h3 & h4 & h5 & h6 & h7).
  split.
  { rewrite (depth_unfold (pushRule rules s k)). simpl.
    f_equal. rewrite (depth_unfold s). by destruct (prevState s). }
  unfold popRule, pushRule. simpl.
  destruct s. simpl in *. unfold set_frame. simpl.
  do 2 f_equal;
    match goal with |- read (assign_slot Absent ?x) = _ => by destruct x end.
Qed.

Lemma advance_loop_settled fuel : forall s s',
  advance_loop fuel s = Ok s' -> completed s' = false.
Proof.
  induction fuel as [| fuel IH]; intros s s'; simpl;
    destruct (completed s) eqn:Hc; try discriminate;
    try (by intros [= <-]).
  destruct (popRule s) as [s1 | |]; simpl; try discriminate.
  destruct (land_in_parent s1) as [s2 | |]; simpl; try discriminate.
  apply IH.
Qed.

Lemma isList_not_completed s :
  isList s = Ok true -> completed s = false.
Proof.
  unfold isList, completed.
  destruct (rule s) as [| | [items | f]]; try discriminate.
  unfold index, step_in_range.
  destruct (step s) as [| | [z |]]; try discriminate.
  destruct (z <? 0)%Z eqn:Hz; [discriminate |].
  destruct (items !! Z.to_nat z) eqn:Hi; [| discriminate].
  intros _. apply negb_false_iff, Z.ltb_lt.
  apply lookup_lt_Some in Hi. apply Z.ltb_ge in Hz. lia.
Qed.

Lemma completed_false_settled s : completed s = false -> settled s.
Proof.
  unfold completed, settled.
  destruct (rule s) as [| | [items | f]]; try done.
  by intros ?%negb_false_iff.
Qed.

Lemma advanceRule_not_completed s b s' :
  advanceRule s b = Ok s' -> completed s' = false.
Proof.
  unfold advanceRule.
  destruct (isList s) as [[] | |] eqn:Hl; cbn [bind]; try discriminate.
  - apply isList_not_completed in Hl.
    destruct (opt_truthy (current_separator s)).
    + destruct (negb (truthy (needsSeperator (toggle_needsSeperator s)))).
      * by intros [= <-].
      * destruct b; [by intros [= <-] | apply advance_loop_settled].
    + destruct b; [by intros [= <-] | apply advance_loop_settled].
  - apply advance_loop_settled.
Qed.

Lemma unwind_loop_stops fuel : forall s s',
  unwind_loop fuel s = Ok s' -> intolerant s' = Ok false.
Proof.
  induction fuel as [| fuel IH]; intros s s'; simpl;
    destruct (intolerant s) as [[] | |] eqn:Hc; simpl; try discriminate;
    try (by intros [= <-]).
  destruct (popRule s) as [s1 | |]; simpl; try discriminate. apply IH.
Qed.

(** X5.  After [advanceRule] and after [unsuccessful] the current frame
    is never a forking rule nor an array read past its end: the rule is
    empty, or it is an array and the step is below its length. *)
Theorem frame_settled_after_advance s s' :
  (exists b, advanceRule s b = Ok s') \/ unsuccessful s = Ok s' ->
  settled s'.
Proof.
  intros [[b H] | H]; apply completed_false_settled.
  - by eapply advanceRule_not_completed.
  - unfold unsuccessful in H.
    destruct (unwind_loop _ s) as [s1 | |] eqn:Hloop; simpl in H;
      try discriminate.
    destruct (defined (rule s1)) eqn:Hdef.
    + by eapply advanceRule_not_completed.
    + injection H as <-. unfold completed.
      by destruct (rule s1).
Qed.

Lemma advance_loop_depth fuel : forall s s',
  advance_loop fuel s = Ok s' -> depth s' <= depth s.
Proof.
  induction fuel as [| fuel IH]; intros s s'; simpl;
    destruct (completed s); try discriminate;
    try (intros [= <-]; lia).
  destruct (popRule s) as [s1 | |] eqn:Hpop; simpl; try discriminate.
  destruct (land_in_parent s1) as [s2 | |] eqn:Hland; simpl; try discriminate.
  intros H. apply IH in H. apply depth_popRule in Hpop.
  apply land_in_parent_depth in Hland. lia.
Qed.

Lemma advanceRule_depth s b s' :
  advanceRule s b = Ok s' -> depth s' <= depth s.
Proof.
  unfold advanceRule.
  assert (Htail : forall s0, depth s0 = depth s ->
    advance_loop (S (depth (next_step s0))) (next_step s0) = Ok s' ->
    depth s' <= depth s).
  { intros s0 Hd H. apply advance_loop_depth in H.
    rewrite (depth_same_prevState s0 (next_step s0)) in H by done. lia. }
  assert (Htog : depth (toggle_needsSeperator s) = depth s)
    by (by apply depth_same_prevState).
  destruct (isList s) as [[] | |]; cbn [bind]; try discriminate.
  - destruct (opt_truthy (current_separator s)).
    + destruct (negb (truthy (needsSeperator (toggle_needsSeperator s)))).
      * intros [= <-]. lia.
      * destruct b; [intros [= <-]; lia | by apply Htail].
    + destruct b; [intros [= <-]; lia | by apply Htail].
  - by apply Htail.
Qed.

Lemma unwind_loop_depth fuel : forall s s',
  unwind_loop fuel s = Ok s' -> depth s' <= depth s.
Proof.
  induction fuel as [| fuel IH]; intros s s'; simpl;
    destruct (intolerant s) as [[] | |]; simpl; try discriminate;
    try (intros [= <-]; lia).
  destruct (popRule s) as [s1 | |] eqn:Hpop; simpl; try discriminate.
  intros H. apply IH in H. apply depth_popRule in Hpop. lia.
Qed.

(** X6.  [advanceRule] and [unsuccessful] write the frame only and never
    push: [level], [needsAdvance], [levels] and [indentLevel] are as
    before, and the stack is no deeper than before. *)
Theorem advance_and_unwind_stay_in_frame s s' :
  (exists b, advanceRule s b = Ok s') \/ unsuccessful s = Ok s' ->
  same_globals s s' /\ depth s' <= depth s.
Proof.
  intros [[b H] | H].
  - split; [by eapply advanceRule_globals | by eapply advanceRule_depth].
  - split; [by apply unsuccessful_globals |].
    unfold unsuccessful in H.
    destruct (unwind_loop _ s) as [s1 | |] eqn:Hloop; simpl in H;
      try discriminate.
    apply unwind_loop_depth in Hloop.
    destruct (defined (rule s1)).
    + apply advanceRule_depth in H. lia.
    + injection H as <-. lia.
Qed.

Lemma advance_loop_not_completed fuel s :
  completed s = false -> advance_loop fuel s = Ok s.
Proof. intros H. destruct fuel; simpl; by rewrite H. Qed.

(** X7.  An [opt] or [list] item that the token does not fit is passed
    over: when the frame is at such an item, not waiting for a separator,
    and the item is not the last of its rule, [unsuccessful] moves the
    step to the next item of the same frame and changes nothing else
    (but for clearing the separator flag). *)
Theorem unmatched_optional_is_skipped s items inner isl sep :
  rule s = Val (Seq items) ->
  index items (step s) = Some (Wrap inner isl sep) ->
  item_truthy inner = true ->
  isl = false \/ opt_truthy sep = false \/ truthy (needsSeperator s) = false ->
  step_in_range items (Val (succ_number (step s))) = true ->
  unsuccessful s = Ok (next_step s).
Proof.
  intros Hr Hi Hin Hcase Hrange.
  assert (Hdone : advance_loop (S (depth (next_step s))) (next_step s) =
                  Ok (next_step s)).
  { apply advance_loop_not_completed. unfold completed.
    change (rule (next_step s)) with (rule s). rewrite Hr.
    change (step (next_step s)) with (Val (succ_number (step s))).
    by rewrite Hrange. }
  unfold unsuccessful. simpl. unfold intolerant. rewrite Hr, Hi. simpl.
  rewrite Hin. simpl. rewrite Hr. simpl.
  unfold advanceRule, isList, current_separator. rewrite Hr, Hi. simpl.
  destruct isl; [| done].
  destruct (opt_truthy sep) eqn:Hsep; [| done].
  destruct Hcase as [? | [? | Hflag]]; try discriminate.
  unfold toggle_needsSeperator at 1. simpl. rewrite Hflag. simpl.
  exact Hdone.
Qed.

(** X8.  A list with a separator, as the code runs it: a successful
    advance keeps the step and flips the separator flag (after an element
    the separator is awaited, after a separator an element); and a token
    that is not the awaited separator makes [unsuccessful] clear the flag
    and keep the step, so that the same token is next tried as an
    element. *)
Theorem separated_list_steps s element separator :
  at_separated_list s element separator ->
  advanceRule s true =
    Ok (set_needsSeperator (negb (truthy (needsSeperator s))) s) /\
  (truthy (needsSeperator s) = true ->
   unsuccessful s = Ok (set_needsSeperator false s)).
Proof.
  intros (items & Hr & Hitem & Hel & Hsep).
  assert (Hadv : forall b, truthy (needsSeperator s) = true \/ b = true ->
            advanceRule s b =
              Ok (set_needsSeperator (negb (truthy (needsSeperator s))) s)).
  { intros b Hb. unfold advanceRule, isList, current_separator.
    rewrite Hr, Hitem. simpl. rewrite Hsep.
    unfold toggle_needsSeperator. simpl.
    destruct (truthy (needsSeperator s)); simpl; [done |].
    by destruct Hb as [? | ->]. }
  split; [apply Hadv; by right |].
  intros Hflag. unfold unsuccessful. simpl. unfold intolerant.
  rewrite Hr, Hitem. simpl. rewrite Hel. simpl. rewrite Hr. simpl.
  rewrite Hadv by (by left). by rewrite Hflag.
Qed.

(** ** The rules on the stack *)

Lemma on_stack_same s s' r :
  rule s' = rule s -> prevState s' = prevState s ->
  on_stack s' r -> on_stack s r.
Proof.
  intros Hr Hp H.
  inversion H as [s0 r0 Hhere | s0 prev r0 Hprev Hbelow]; subst.
  - apply on_stack_here. congruence.
  - eapply on_stack_below; [| done]. congruence.
Qed.

Lemma on_stack_popRule s s1 r :
  popRule s = Ok s1 -> on_stack s1 r -> on_stack s r.
Proof.
  unfold popRule. destruct (prevState s) as [| | prev] eqn:Hprev;
    try discriminate.
  intros [= <-] H. eapply on_stack_below; [done |].
  inversion H as [s0 r0 Hhere | s0 pp r0 Hpp Hbelow]; subst; simpl in *.
  - apply on_stack_here. by destruct (rule prev).
  - eapply on_stack_below; [| done]. by destruct (prevState prev).
Qed.

Lemma on_stack_land_in_parent s s' r :
  land_in_parent s = Ok s' -> on_stack s' r -> on_stack s r.
Proof.
  unfold land_in_parent. destruct (defined (rule s)).
  - destruct (isList s) as [[] | |]; simpl; try discriminate.
    + destruct (opt_truthy _); intros [= <-]; [| done].
      by apply on_stack_same.
    + intros [= <-]. by apply on_stack_same.
  - by intros [= <-].
Qed.

Lemma on_stack_advance_loop fuel : forall s s' r,
  advance_loop fuel s = Ok s' -> on_stack s' r -> on_stack s r.
Proof.
  induction fuel as [| fuel IH]; intros s s' r; simpl.
  - destruct (completed s); [discriminate |]. by intros [= <-].
  - destruct (completed s); [| by intros [= <-]].
    destruct (popRule s) as [s1 | |] eqn:Hpop; simpl; try discriminate.
    destruct (land_in_parent s1) as [s2 | |] eqn:Hland; simpl;
      try discriminate.
    intros Hloop H. eapply on_stack_popRule; [done |].
    eapply on_stack_land_in_parent; [done |]. by eapply IH.
Qed.

Lemma on_stack_advanceRule s b s' r :
  advanceRule s b = Ok s' -> on_stack s' r -> on_stack s r.
Proof.
  unfold advanceRule.
  assert (Htail : forall s0 s1,
    advance_loop (S (depth (next_step s0))) (next_step s0) = Ok s1 ->
    on_stack s1 r -> on_stack s0 r).
  { intros s0 s1 Hloop H.
    apply (on_stack_same s0 (next_step s0)); [done | done |].
    by eapply on_stack_advance_loop. }
  destruct (isList s) as [[] | |]; cbn [bind]; try discriminate.
  - destruct (opt_truthy (current_separator s)).
    + destruct (negb (truthy (needsSeperator (toggle_needsSeperator s)))).
      * intros [= <-]. by apply on_stack_same.
      * destruct b.
        -- intros [= <-]. by apply on_stack_same.
        -- intros Hloop H.
           apply (on_stack_same s (toggle_needsSeperator s)); [done | done |].
           by eapply Htail.
    + destruct b; [by intros [= <-] | apply Htail].
  - apply Htail.
Qed.

Lemma on_stack_unwind_loop fuel : forall s s' r,
  unwind_loop fuel s = Ok s' -> on_stack s' r -> on_stack s r.
Proof.
  induction fuel as [| fuel IH]; intros s s' r; simpl;
    destruct (intolerant s) as [[] | |]; simpl; try discriminate;
    try (by intros [= <-]).
  destruct (popRule s) as [s1 | |] eqn:Hpop; simpl; try discriminate.
  intros Hloop H. eapply on_stack_popRule; [done |]. by eapply IH.
Qed.

Lemma on_stack_unsuccessful s s' r :
  unsuccessful s = Ok s' -> on_stack s' r -> on_stack s r.
Proof.
  unfold unsuccessful.
  destruct (unwind_loop _ s) as [s1 | |] eqn:Hloop; simpl; try discriminate.
  destruct (defined (rule s1)).
  - intros Hadv H. eapply on_stack_unwind_loop; [done |].
    by eapply on_stack_advanceRule.
  - intros [= <-]. by eapply on_stack_unwind_loop.
Qed.

Lemma on_stack_assign_emptyObject s r :
  on_stack (assign emptyObject s) r -> on_stack s r.
Proof.
  intros H.
  inversion H as [s0 r0 Hhere | s0 prev r0 Hprev Hbelow]; subst; simpl in *.
  - apply on_stack_here. by destruct (rule s).
  - eapply on_stack_below; [| done]. by destruct (prevState s).
Qed.

Lemma on_stack_pushRule (rules : gmap string (RuleDef Stream Update)) s k r :
  on_stack (pushRule rules s k) r ->
  rules !! k = Some r \/ on_stack s r.
Proof.
  intros H.
  inversion H as [s0 r0 Hhere | s0 prev r0 Hprev Hbelow]; subst; simpl in *.
  - left. destruct (rules !! k); [congruence | discriminate].
  - right. injection Hprev as <-. by apply on_stack_assign_emptyObject.
Qed.

End MoreFrameFacts.

Section MoreTokenFacts.
Context {Stream RegExp Update : Type}.
Variable host : @HostOps Stream RegExp Update.
Implicit Types state s cache snapshot : ParserState Stream Update.
Implicit Types options : @Options Stream RegExp Update.

(** X1.  [lex] returns the match of the first rule, in key order, whose
    pattern matches at the stream: every rule before it fails, the token's
    kind is that rule's key and its value the matched text.  It returns
    nothing exactly when every rule fails. *)
Theorem lex_first_match (rules : list (string * RegExp)) stream :
  (forall token stream',
     lex host rules stream = Some (token, stream') <->
     exists before re after,
       rules = (before ++ (Token.kind token, re) :: after)%list /\
       Forall (fun r => match_regexp host stream r.2 = None) before /\
       match_regexp host stream re = Some (Token.value token, stream')) /\
  (lex host rules stream = None <->
   Forall (fun r => match_regexp host stream r.2 = None) rules).
Proof.
  induction rules as [| [kind re] rest [IHsome IHnone]]; simpl.
  - split; [| done]. intros token stream'. split; [done |].
    intros (before & re & after & Heq & _). by destruct before.
  - destruct (match_regexp host stream re) as [[text stream1] |] eqn:Hm.
    + split; [| split; [done | by inversion 1; simplify_eq /=]].
      intros token stream'. split.
      * intros [= <- <-]. exists [], re, rest. by repeat split.
      * intros ([| [k0 r0] before] & re' & after & Heq & Hall & Hm').
        -- destruct token as [tk tv]. simpl in *.
           injection Heq as -> -> ->. rewrite Hm in Hm'. by injection Hm' as -> ->.
        -- simpl in Heq. injection Heq as <- <- ->.
           apply Forall_cons in Hall as [Hfail _]. simpl in Hfail. congruence.
    + split.
      * intros token stream'. rewrite IHsome. split.
        -- intros (before & re' & after & -> & Hall & Hm').
           exists ((kind, re) :: before), re', after.
           repeat split; [by constructor | done].
        -- intros ([| [k0 r0] before] & re' & after & Heq & Hall & Hm').
           ++ simpl in Heq. injection Heq as -> -> ->. congruence.
           ++ simpl in Heq. injection Heq as <- <- ->.
              apply Forall_cons in Hall as [_ Hall].
              by exists before, re', after.
      * rewrite IHnone. split; [by constructor | by inversion 1].
Qed.

(** X2.  Text no lex rule matches: [getToken] moves the stream over the
    run of characters [/\S+/] matches, returns ['invalidchar'], does not
    write the snapshot cache and does not run the rule loop; the state is
    the one left by the deferred advance and the line-start indentation. *)
Theorem unlexable_is_invalidchar options editor fuel cache stream s :
  fst (eatWhitespace options stream) = false ->
  match_lineComment host editor (snd (eatWhitespace options stream)) = None ->
  lex host (LexRules options) (snd (eatWhitespace options stream)) = None ->
  getToken host fuel options editor cache stream s =
    (let* s1 := snapshot_of host editor stream s in
     Ok {| ret_style := Some "invalidchar";
           ret_stream :=
             match match_regexp host (snd (eatWhitespace options stream))
                                (nonSpaces host) with
             | Some (_, stream') => stream'
             | None => snd (eatWhitespace options stream)
             end;
           ret_state := s1;
           ret_cache := cache |}).
Proof.
  intros Hws Hc Hlex. unfold getToken, snapshot_of.
  destruct (deferred_advance s); simpl; try done.
  destruct (eatWhitespace options stream) as [[] stream1]; simpl in *;
    [done |].
  by rewrite Hc, Hlex.
Qed.

Lemma unwrapped_terminal (e : Item Update) (tm : Terminal Update) :
  unwrap e = Term tm -> bare_or_wrapped e tm.
Proof.
  unfold unwrap, bare_or_wrapped.
  destruct e as [k | tm' | inner isl sep]; simpl; try discriminate.
  - intros [= ->]. by left.
  - destruct (item_truthy inner); [| discriminate].
    intros ->. right. by exists isl, sep.
Qed.

Lemma expected_terminal token stream s tm :
  expectation token stream s = ExpectTerminal tm ->
  exists r, rule s = Val r /\ rule_terminal token stream r tm.
Proof.
  unfold expectation.
  assert (Hfound : forall item,
            expected_item token stream s = Some item ->
            item_terminal item tm ->
            exists r, rule s = Val r /\ rule_terminal token stream r tm).
  { unfold expected_item. intros item Hitem Hin.
    destruct (rule s) as [| | [items | choose]]; try discriminate.
    - exists (Seq items). split; [done |]. exists item. split; [| done].
      unfold index in Hitem.
      destruct (step s) as [| | [z |]]; try discriminate.
      destruct (z <? 0)%Z; [discriminate |].
      apply list_elem_of_In. by eapply list_elem_of_lookup_2.
    - exists (Fork choose). split; [done |]. exists item. split; [| done].
      destruct (step s) as [| | [[] |]]; by try discriminate. }
  destruct (expected_item token stream s) as [item |] eqn:Hitem;
    [| unfold expect_separator; by destruct (truthy _)].
  unfold expect_separator.
  destruct (truthy (needsSeperator s)).
  - destruct (item_truthy item) eqn:Htruthy.
    + destruct (item_separator item) as [sep |] eqn:Hsep; [| done].
      simpl. destruct (item_truthy sep); [| done].
      destruct (unwrap sep) as [k | tm' |] eqn:Hun; try done.
      intros [= ->]. apply (Hfound item eq_refl). right.
      destruct item as [k | tm' | inner isl sep']; try discriminate.
      simpl in Hsep. subst sep'.
      exists inner, isl, sep. split; [done |]. by apply unwrapped_terminal.
    + simpl. by rewrite Htruthy.
  - simpl. destruct (item_truthy item); [| done].
    destruct (unwrap item) as [k | tm' |] eqn:Hun; try done.
    intros [= ->]. apply (Hfound item eq_refl). left.
    by apply unwrapped_terminal.
Qed.

(** X9.  The rule loop makes up no style: when it returns a style, that
    style is the style of a terminal whose predicate holds of the token
    and which is written in a rule of the grammar or in a rule that was
    on the stack when the loop began. *)
Theorem accepted_by_matching_terminal fuel rules token stream : forall s st s',
  rule_loop host fuel rules token stream s = Ok (Some st, s') ->
  exists r terminal,
    (on_stack s r \/ exists k, rules !! k = Some r) /\
    rule_terminal token stream r terminal /\
    match_ terminal token = true /\
    st = style terminal.
Proof.
  induction fuel as [| fuel IH]; intros s st s'.
  - simpl. by destruct (defined (rule s)).
  - destruct (defined (rule s)) eqn:Hdef; [| simpl; by rewrite Hdef].
    rewrite rule_loop_unfold by done.
    assert (Hretry : retry host fuel rules token stream s = Ok (Some st, s') ->
              exists r terminal,
                (on_stack s r \/ exists k, rules !! k = Some r) /\
                rule_terminal token stream r terminal /\
                match_ terminal token = true /\
                st = style terminal).
    { unfold retry. destruct (unsuccessful s) as [s1 | |] eqn:Hun; simpl;
        try discriminate.
      intros (r & tm & [Hon | Hin] & Hrest)%IH; exists r, tm;
        (split; [| done]); [left | by right].
      by eapply on_stack_unsuccessful. }
    destruct (expectation token stream s) as [k | tm |] eqn:Hexp; [| | done].
    + intros (r & tm & [Hon | Hin] & Hrest)%IH; exists r, tm;
        (split; [| done]); [| by right].
      apply on_stack_pushRule in Hon as [Hk | Hon]; [right; by exists k | by left].
    + destruct (match_ tm token) eqn:Hm; [| done].
      destruct (accept host tm token s) as [s1 | |] eqn:Hacc; simpl;
        try discriminate.
      intros [= <- <-].
      destruct (expected_terminal token stream s tm Hexp) as (r & Hr & Hin).
      exists r, tm. split; [left; by apply on_stack_here | done].
Qed.

Lemma rule_loop_no_rule fuel rules token stream s :
  defined (rule s) = false ->
  rule_loop host fuel rules token stream s = Ok (None, s).
Proof. intros H. destruct fuel; simpl; by rewrite H. Qed.

(** X10.  A rule name that [ParseRules] does not hold: the frame pushed
    for it has no rule, so the loop stops at once without accepting; the
    token is unrecognized and nothing is thrown. *)
Theorem missing_rule_is_unrecognized fuel rules token stream s k :
  defined (rule s) = true ->
  expectation token stream s = ExpectRule k ->
  rules !! k = None ->
  rule_loop host (S fuel) rules token stream s =
    Ok (None, pushRule rules s k) /\
  rule (pushRule rules s k) = Undefined.
Proof.
  intros Hdef Hexp Hlook. rewrite rule_loop_unfold by done. rewrite Hexp.
  assert (Hr : rule (pushRule rules s k) = Undefined)
    by (unfold pushRule; simpl; by rewrite Hlook).
  split; [| done]. apply rule_loop_no_rule. by rewrite Hr.
Qed.

(** X11.  A rule that is an empty array: once a frame is pushed for it,
    nothing is expected, and [unsuccessful] reads [.ofRule] of the missing
    item: [getToken] throws a [TypeError]. *)
Theorem empty_rule_throws fuel rules token stream s k :
  defined (rule s) = true ->
  expectation token stream s = ExpectRule k ->
  rules !! k = Some (Seq []) ->
  rule_loop host (S (S fuel)) rules token stream s = TypeError.
Proof.
  intros Hdef Hexp Hlook. rewrite rule_loop_unfold by done. rewrite Hexp.
  assert (Hr : rule (pushRule rules s k) = Val (Seq []))
    by (unfold pushRule; simpl; by rewrite Hlook).
  rewrite rule_loop_unfold by (by rewrite Hr).
  assert (Hexp' : expectation token stream (pushRule rules s k) = ExpectNothing).
  { unfold expectation, expected_item. rewrite Hr. done. }
  rewrite Hexp'. unfold retry, unsuccessful. simpl.
  unfold intolerant. by rewrite Hr.
Qed.

(** X12.  A rule that begins with its own name: at step 0 of such a
    frame the loop pushes the same rule again without reading the token,
    for ever; [getToken] does not return, whatever the token. *)
Theorem left_recursion_never_returns rules token stream k rest :
  k <> EmptyString ->
  rules !! k = Some (Seq (Ref k :: rest)) ->
  forall fuel s,
    rule s = Val (Seq (Ref k :: rest)) ->
    step s = Val (Num 0) ->
    truthy (needsSeperator s) = false ->
    rule_loop host fuel rules token stream s = OutOfFuel.
Proof.
  intros Hk Hlook. induction fuel as [| fuel IH]; intros s Hr Hst Hsep.
  - simpl. by rewrite Hr.
  - rewrite rule_loop_unfold by (by rewrite Hr).
    assert (Hexp : expectation token stream s = ExpectRule k).
    { unfold expectation, expected_item, expect_separator.
      rewrite Hr, Hst, Hsep. simpl.
      destruct (String.eqb k EmptyString) eqn:Heq; [| done].
      by apply String.eqb_eq in Heq. }
    rewrite Hexp. apply IH; unfold pushRule; simpl; try done.
    by rewrite Hlook.
Qed.

Lemma closer_pops closer s :
  is_punctuation closer = true ->
  opens_bracket (Token.value closer) = false ->
  closes_bracket (Token.value closer) = true ->
  levels (track_indentation closer s) = Val (removelast (levels_or_empty s)).
Proof.
  intros Hp Ho Hc. unfold track_indentation. rewrite Hp, Ho, Hc.
  destruct (last _) as [top |]; [| done].
  by destruct (number_lt top _).
Qed.

Lemma opener_pushes opener s :
  is_punctuation opener = true ->
  opens_bracket (Token.value opener) = true ->
  track_indentation opener s =
    set_levels (levels_or_empty s ++ [succ_number (indentLevel s)])%list s.
Proof. intros Hp Ho. unfold track_indentation. by rewrite Hp, Ho. Qed.

(** X13.  An opening bracket followed by a closing bracket leaves
    [levels] as it was before the two (a missing [levels] reads as the
    empty list): what the opener pushes the closer pops. *)
Theorem bracket_pair_restores_levels opener closer s :
  is_punctuation opener = true ->
  opens_bracket (Token.value opener) = true ->
  is_punctuation closer = true ->
  opens_bracket (Token.value closer) = false ->
  closes_bracket (Token.value closer) = true ->
  levels (track_indentation closer (track_indentation opener s)) =
    Val (levels_or_empty s).
Proof.
  intros Hp1 Ho1 Hp2 Ho2 Hc2.
  rewrite closer_pops, opener_pushes by done.
  unfold levels_or_empty at 1. simpl. by rewrite removelast_last.
Qed.

(** X14.  The bracket bookkeeping never raises [indentLevel].  A token
    that is no bracket leaves the state as it is; an opening bracket
    leaves [indentLevel] alone; a closing bracket pops the last level and
    then lowers [indentLevel] to the level now on top of the stack when
    that level is below it (the result is the smaller of the two), and
    leaves it alone when the stack is empty or one of the two is no
    number. *)
Theorem indentation_never_raised token s :
  number_le (indentLevel (track_indentation token s)) (indentLevel s) /\
  (is_punctuation token = false \/
   (opens_bracket (Token.value token) = false /\
    closes_bracket (Token.value token) = false) ->
   track_indentation token s = s) /\
  (is_punctuation token = true ->
   opens_bracket (Token.value token) = true ->
   indentLevel (track_indentation token s) = indentLevel s) /\
  (is_punctuation token = true ->
   opens_bracket (Token.value token) = false ->
   closes_bracket (Token.value token) = true ->
   levels (track_indentation token s) =
     Val (removelast (levels_or_empty s)) /\
   indentLevel (track_indentation token s) =
     match last (removelast (levels_or_empty s)), indentLevel s with
     | Some (Num top), Val (Num current) => Val (Num (Z.min top current))
     | _, _ => indentLevel s
     end).
Proof.
  assert (Hrefl : forall a : slot number, number_le a a).
  { intros [| | [z |]]; simpl; try done. }
  assert (Hcloser : is_punctuation token = true ->
            opens_bracket (Token.value token) = false ->
            closes_bracket (Token.value token) = true ->
            levels (track_indentation token s) =
              Val (removelast (levels_or_empty s)) /\
            indentLevel (track_indentation token s) =
              match last (removelast (levels_or_empty s)), indentLevel s with
              | Some (Num top), Val (Num current) =>
                  Val (Num (Z.min top current))
              | _, _ => indentLevel s
              end).
  { intros Hp Ho Hc. unfold track_indentation. rewrite Hp, Ho, Hc.
    destruct (last (removelast (levels_or_empty s))) as [[top |] |];
      simpl; try done.
    destruct (indentLevel s) as [| | [current |]] eqn:Hlevel; simpl;
      try done.
    destruct (top <? current)%Z eqn:Hlt; simpl.
    - split; [done |]. apply Z.ltb_lt in Hlt. do 2 f_equal. lia.
    - split; [done |]. apply Z.ltb_ge in Hlt. rewrite Hlevel.
      do 2 f_equal. lia. }
  split; [| split; [| split; [| exact Hcloser]]].
  - destruct (is_punctuation token) eqn:Hp;
      [| unfold track_indentation; rewrite Hp; apply Hrefl].
    destruct (opens_bracket (Token.value token)) eqn:Ho;
      [unfold track_indentation; rewrite Hp, Ho; apply Hrefl |].
    destruct (closes_bracket (Token.value token)) eqn:Hc;
      [| unfold track_indentation; rewrite Hp, Ho, Hc; apply Hrefl].
    destruct (Hcloser eq_refl eq_refl eq_refl) as [_ ->].
    destruct (last (removelast (levels_or_empty s))) as [[top |] |];
      try apply Hrefl.
    destruct (indentLevel s) as [| | [current |]]; simpl; try done. lia.
  - unfold track_indentation. intros [-> | [-> ->]]; [done |].
    by destruct (is_punctuation token).
  - intros Hp Ho. unfold track_indentation. by rewrite Hp, Ho.
Qed.

Lemma keeps_keys_refl s : keeps_keys s s.
Proof. by repeat split. Qed.

Lemma keeps_keys_save cache snapshot : keeps_keys cache (saveState cache snapshot).
Proof.
  unfold keeps_keys, saveState, assign. simpl.
  repeat split;
    match goal with |- _ -> assign_slot _ ?x <> _ => by destruct x end.
Qed.

(** X15.  The snapshot cache only gathers keys: after a [getToken] call
    the cache holds every key it held before, whatever the call did.  A
    value saved for a key stays in the cache until a state that has the
    key is saved over it. *)
Theorem cache_keys_only_grow options editor fuel cache stream s r :
  getToken host fuel options editor cache stream s = Ok r ->
  keeps_keys cache (ret_cache r).
Proof.
  unfold getToken.
  destruct (deferred_advance s) as [s1 | |]; simpl; try discriminate.
  destruct (eatWhitespace options stream) as [[] stream1];
    [intros [= <-]; apply keeps_keys_refl |].
  destruct (match_lineComment host editor stream1);
    [intros [= <-]; apply keeps_keys_refl |].
  destruct (lex host (LexRules options) stream1) as [[token stream2] |];
    [| intros [= <-]; apply keeps_keys_refl].
  destruct (rule_loop host fuel _ token stream2 _) as [[[st |] s4] | |];
    simpl; try discriminate; intros [= <-]; apply keeps_keys_save.
Qed.

(** X17.  The style [getToken] returns, and where it leaves the stream,
    do not depend on the snapshot cache: two calls that differ in the
    cache only return the same style and the same stream. *)
Theorem style_and_stream_ignore_cache options editor fuel cache1 cache2 stream s :
  ret_style <$> getToken host fuel options editor cache1 stream s =
    ret_style <$> getToken host fuel options editor cache2 stream s /\
  ret_stream <$> getToken host fuel options editor cache1 stream s =
    ret_stream <$> getToken host fuel options editor cache2 stream s.
Proof.
  unfold getToken.
  destruct (deferred_advance s) as [s1 | |]; simpl; try done.
  destruct (eatWhitespace options stream) as [[] stream1]; [done |].
  destruct (match_lineComment host editor stream1); [done |].
  destruct (lex host (LexRules options) stream1) as [[token stream2] |]; [| done].
  by destruct (rule_loop host fuel _ token stream2 _) as [[[st |] s4] | |].
Qed.

(** X18.  When the state saved before the token holds all eleven keys,
    the state [getToken] hands back does not depend on the snapshot cache
    either, and after an unrecognized token it is the saved state, field
    for field. *)
Theorem state_ignores_cache_with_all_keys options editor fuel cache1 cache2
    stream s snapshot :
  snapshot_of host editor stream s = Ok snapshot ->
  has_all_keys snapshot ->
  ret_state <$> getToken host fuel options editor cache1 stream s =
    ret_state <$> getToken host fuel options editor cache2 stream s /\
  (forall token stream' unwound,
     Unrecognized host options editor fuel stream s snapshot token stream'
                  unwound ->
     ret_state <$> getToken host fuel options editor cache1 stream s =
       Ok snapshot).
Proof.
  intros Hsnap Hkeys. split.
  - revert Hsnap. unfold getToken, snapshot_of.
    destruct (deferred_advance s) as [s1 | |]; simpl; try done.
    intros [= <-].
    destruct (eatWhitespace options stream) as [[] stream1]; [done |].
    destruct (match_lineComment host editor stream1); [done |].
    destruct (lex host (LexRules options) stream1) as [[token stream2] |];
      [| done].
    destruct (rule_loop host fuel _ token stream2 _) as [[[st |] s4] | |];
      try done.
    simpl. by rewrite !restore_complete.
  - intros token stream' unwound Hun.
    rewrite (getToken_unrecognized host _ _ _ _ _ _ _ _ _ _ Hun). simpl.
    by rewrite restore_complete.
Qed.

(** X3.  The stack invariant: with a grammar without empty rules and
    [update] callbacks that leave the stack alone, the start state
    satisfies the invariant (every frame with a rule has a valid step and
    an enclosing frame), and from a state that satisfies it [getToken]
    throws no [TypeError] and hands back a state that satisfies it. *)
Theorem stack_invariant_kept options :
  proper_grammar (ParseRules options) -> sound_updates host ->
  stack_ok (startState options) /\
  forall editor fuel cache stream s,
    stack_ok s ->
    match getToken host fuel options editor cache stream s with
    | Ok r => stack_ok (ret_state r)
    | TypeError => False
    | OutOfFuel => True
    end.
Proof.
  intros Hg Hup. split; [by apply startState_stack_ok |].
  intros editor fuel cache stream s Hok.
  unfold getToken.
  destruct (deferred_advance_stack_ok s Hok) as (s1 & -> & Hok1). simpl.
  pose proof (remember_indentation_stack_ok host editor stream s1 Hok1) as Hok2.
  destruct (eatWhitespace options stream) as [[] stream1]; [done |].
  destruct (match_lineComment host editor stream1); [done |].
  destruct (lex host (LexRules options) stream1) as [[token stream2] |];
    [| done].
  assert (Hok3 : stack_ok (track_indentation token
                             (remember_indentation host editor stream s1))).
  { destruct (track_indentation_frame token
                (remember_indentation host editor stream s1)) as (e1 & e2 & e3).
    by eapply stack_ok_same_frame. }
  pose proof (rule_loop_stack_ok host fuel (ParseRules options) token stream2
                Hg Hup _ Hok3) as Hloop.
  destruct (rule_loop host fuel _ token stream2 _) as [[[st |] s4] | |];
    simpl; try done.
  by apply restore_frame.
Qed.

End MoreTokenFacts.

(** ** [runMode] *)
Section RunModeFacts.
Context {Stream RegExp Update A : Type}.
Variable host : @HostOps Stream RegExp Update.
Variable eol : Stream -> bool.
Variable set_start : Stream -> Stream.
Variable iterFn :
  A -> ParserState Stream Update -> option string -> Stream -> A.
Implicit Types state s cache : ParserState Stream Update.
Implicit Types options : @Options Stream RegExp Update.

Lemma run_line_stack_ok (P : A -> Prop) calls fuel options editor :
  proper_grammar (ParseRules options) -> sound_updates host ->
  (forall a s st stream, P a -> stack_ok s -> P (iterFn a s st stream)) ->
  forall cache stream s acc,
    stack_ok s -> P acc ->
    match run_line host eol set_start iterFn calls fuel options editor
                   cache stream s acc with
    | Ok (_, s', acc') => stack_ok s' /\ P acc'
    | TypeError => False
    | OutOfFuel => True
    end.
Proof.
  intros Hg Hup Hiter.
  induction calls as [| calls IH]; intros cache stream s acc Hok Hacc; simpl.
  - by destruct (eol stream).
  - destruct (eol stream); [done |].
    pose proof (getToken_stack_ok host options editor fuel cache stream s
                  Hg Hup Hok) as Hstep.
    destruct (getToken host fuel options editor cache stream s) as [r | |];
      simpl; try done.
    apply IH; [done | by apply Hiter].
Qed.

(** X16.  [runMode] on a grammar without empty rules: whatever the lines
    hold, no call throws a [TypeError], every state handed to [iterFn]
    satisfies the stack invariant (so any property of what [iterFn]
    gathers that such states keep holds at the end), and so does the
    final state. *)
Theorem runMode_keeps_stack (P : A -> Prop) calls fuel options editor cache
    lines acc :
  proper_grammar (ParseRules options) -> sound_updates host ->
  (forall a s st stream, P a -> stack_ok s -> P (iterFn a s st stream)) ->
  P acc ->
  match runMode host eol set_start iterFn calls fuel options editor
                cache lines acc with
  | Ok (_, s', acc') => stack_ok s' /\ P acc'
  | TypeError => False
  | OutOfFuel => True
  end.
Proof.
  intros Hg Hup Hiter Hacc. unfold runMode.
  pose proof (startState_stack_ok options Hg) as Hok.
  revert cache acc Hacc Hok. generalize (startState options).
  induction lines as [| stream rest IH]; intros s cache acc Hacc Hok; simpl.
  - done.
  - pose proof (run_line_stack_ok P calls fuel options editor Hg Hup Hiter
                  cache stream s acc Hok Hacc) as Hline.
    destruct (run_line host eol set_start iterFn calls fuel options editor
                       cache stream s acc) as [[[cache1 s1] acc1] | |];
      simpl; try done.
    destruct Hline. by apply IH.
Qed.

End RunModeFacts.

(** ** [butNot], twice *)
Module MoreRuleObjectsFacts.
Import RuleObjects.

(** X19.  Two [butNot] calls on one rule add up: afterwards the rule's
    [match] returns [true] for a token exactly when the original function
    returns [true] and the [match] of every exclusion of the first call
    and of the second call returns [false]. *)
Theorem butNot_twice heap rule first second original :
  heap !! rule = Some original ->
  exists heap1 heap2,
    butNot heap rule first = Some (heap1, rule) /\
    butNot heap1 rule second = Some (heap2, rule) /\
    forall token,
      matches heap2 rule token true <->
      returns heap2 (match_ original) token true /\
      Forall (fun e => matches heap2 e token false) first /\
      Forall (fun e => matches heap2 e token false) second.
Proof.
  intros Hlook. unfold butNot. rewrite Hlook.
  eexists _, _. split; [done |].
  rewrite lookup_insert_eq. split; [done |].
  intros token. unfold matches at 1. rewrite lookup_insert_eq. simpl.
  split.
  - intros (object & [= <-] & Hret). simpl in Hret.
    apply RuleObjectsFacts.guarded_returns_true in Hret as [Hret Hsecond].
    apply RuleObjectsFacts.guarded_returns_true in Hret as [Hret Hfirst].
    done.
  - intros (Horig & Hfirst & Hsecond). eexists. split; [done |]. simpl.
    apply RuleObjectsFacts.guarded_returns_true. split; [| done].
    by apply RuleObjectsFacts.guarded_returns_true.
Qed.

Lemma butNot_twice_witness :
  Demo.terminals !! 0 =
    Some {| style := Some "variable";
            match_ := Native (fun token => String.eqb (Token.kind token) "Name") |} /\
  exists heap1 heap2,
    butNot Demo.terminals 0 [1] = Some (heap1, 0) /\
    butNot heap1 0 [2] = Some (heap2, 0) /\
    forall token,
      matches heap2 0 token true <->
      returns heap2 (Native (fun token => String.eqb (Token.kind token) "Name"))
              token true /\
      Forall (fun e => matches heap2 e token false) [1] /\
      Forall (fun e => matches heap2 e token false) [2].
Proof.
  split; [vm_compute; reflexivity |].
  apply (butNot_twice Demo.terminals 0 [1] [2]
           {| style := Some "variable";
              match_ := Native (fun token => String.eqb (Token.kind token) "Name") |}).
  vm_compute. reflexivity.
Defined.

End MoreRuleObjectsFacts.

(** ** [HistoryStore] *)
Module HistoryStoreFacts.
Import HistoryStore.
Section Store.
Context {Item Storage : Type}.
Variable storage_set : Storage -> string -> string -> bool * Storage.
Variable stringify : string -> list Item -> string.

(** X20.  A store of at most ten items is never written: [save] leaves
    the storage and the items as they are, without calling
    [storage.set]. *)
Theorem save_small_store_writes_nothing (store : @t Item Storage) :
  length (items store) <= 10 ->
  save storage_set stringify store = store.
Proof.
  intros Hlen. unfold save. destruct store as [k st its]. simpl in *.
  destruct its as [| item rest]; [done |].
  simpl. destruct (length rest) as [| [| [| [| [| [| [| [| [| [| n]]]]]]]]]] eqn:Hn;
    try done. simpl in Hlen. lia.
Qed.

Lemma save_loop_spec k : forall (its : list Item) st st' its',
  save_loop storage_set stringify k st its = (st', its') ->
  (exists dropped, its = (dropped ++ its')%list) /\
  (10 < length its -> 10 <= length its') /\
  (10 < length its' ->
   exists st0, storage_set st0 k (stringify k its') = (true, st')) /\
  (length its <= 10 -> its' = its /\ st' = st).
Proof.
  induction its as [| item rest IH]; intros st st' its'.
  - simpl. intros [= <- <-]. split; [by exists [] |]. repeat split; simpl; lia.
  - cbn [save_loop].
    destruct (10 <? length (item :: rest))%nat eqn:Hlen.
    + apply Nat.ltb_lt in Hlen.
      destruct (storage_set st k (stringify k (item :: rest)))
        as [[] st1] eqn:Hset.
      * intros [= <- <-]. split; [by exists [] |]. split; [lia |].
        split; [intros _; by exists st | lia].
      * intros H. apply IH in H as ((dropped & ->) & Hmin & Hstored & Hsmall).
        split; [by exists (item :: dropped) |].
        split; [| split; [done | lia]].
        intros _. simpl in Hlen.
        destruct (decide (10 < length (dropped ++ its'))) as [Hbig | Hle].
        -- by apply Hmin.
        -- destruct Hsmall as [Heq _]; [lia |]. rewrite Heq. lia.
    + apply Nat.ltb_ge in Hlen. intros [= <- <-].
      split; [by exists [] |]. repeat split; lia.
Qed.

(** X21.  [save] drops only the oldest items and never goes below ten:
    the items it keeps are a tail of the items it was given; of more than
    ten items at least ten are kept; and if more than ten are kept, the
    last [storage.set] call, made with exactly the kept items, returned
    true. *)
Theorem save_keeps_newest (store : @t Item Storage) :
  (exists dropped,
     items store = (dropped ++ items (save storage_set stringify store))%list) /\
  (10 < length (items store) ->
   10 <= length (items (save storage_set stringify store))) /\
  (10 < length (items (save storage_set stringify store)) ->
   exists st0,
     storage_set st0 (key store)
       (stringify (key store) (items (save storage_set stringify store))) =
     (true, storage (save storage_set stringify store))) /\
  key (save storage_set stringify store) = key store.
Proof.
  unfold save.
  destruct (save_loop storage_set stringify (key store) (storage store)
                      (items store)) as [st' its'] eqn:Hloop.
  simpl. apply save_loop_spec in Hloop as (H1 & H2 & H3 & _). by repeat split.
Qed.

(** X22.  The item just pushed is the most recent one: after
    [push(item)], [fetchRecent()] returns that item, however many older
    items [save] had to drop. *)
Theorem fetchRecent_after_push (store : @t Item Storage) item :
  fetchRecent (push storage_set stringify store item) = Some item.
Proof.
  unfold push, fetchRecent, save. simpl.
  destruct (save_loop storage_set stringify (key store) (storage store)
                      (items store ++ [item])) as [st' kept] eqn:Hloop.
  simpl. apply save_loop_spec in Hloop as ((dropped & Hsplit) & Hmin & _ & Hsmall).
  assert (Hne : kept <> []).
  { intros ->.
    destruct (decide (10 < length (items store ++ [item]))) as [Hbig | Hle].
    - apply Hmin in Hbig. simpl in Hbig. lia.
    - destruct Hsmall as [Heq _]; [lia |]. by destruct (items store). }
  apply last_is_Some in Hne as [x Hx].
  assert (Hlast : last (dropped ++ kept) = Some x)
    by (rewrite last_app; by rewrite Hx).
  rewrite <- Hsplit, last_snoc in Hlast. congruence.
Qed.

(** X25.  Below ten items [push] and [shift] only change the array: the
    pushed item is appended, the oldest item is removed, and the storage
    is not written. *)
Theorem push_and_shift_below_ten (store : @t Item Storage) item :
  length_ store < 10 ->
  push storage_set stringify store item =
    mk (key store) (storage store) (items store ++ [item]) /\
  shift storage_set stringify store =
    mk (key store) (storage store) (tail (items store)) /\
  length_ (push storage_set stringify store item) = S (length_ store).
Proof.
  unfold length_. intros Hlen.
  assert (Hsave : forall its, length its <= 10 ->
            save storage_set stringify (mk (key store) (storage store) its) =
              mk (key store) (storage store) its).
  { intros its Hits. unfold save. simpl.
    destruct (save_loop storage_set stringify (key store) (storage store) its)
      as [st' its'] eqn:Hloop.
    apply save_loop_spec in Hloop as (_ & _ & _ & Hsmall).
    by destruct Hsmall as [-> ->]. }
  unfold push, shift.
  rewrite !Hsave.
  - repeat split. simpl. rewrite length_app. simpl. lia.
  - destruct (items store); simpl in *; lia.
  - rewrite length_app. simpl. lia.
Qed.

End Store.
End HistoryStoreFacts.

(** ** [HistoryQuery] and [ToolbarSelect] *)
Module ComponentFacts.

Lemma split_lines_no_newline s :
  Forall (fun line => ~ In HistoryQuery.newline (list_ascii_of_string line))
         (HistoryQuery.split_lines s).
Proof.
  induction s as [| c rest IH]; simpl.
  - constructor; [| constructor]. simpl. tauto.
  - destruct (Ascii.eqb c HistoryQuery.newline) eqn:Hc.
    + constructor; [simpl; tauto | done].
    + destruct (HistoryQuery.split_lines rest) as [| line lines].
      * constructor; [| constructor]. simpl.
        apply Ascii.eqb_neq in Hc. intros [-> | []]. done.
      * inversion IH as [| ? ? Hline Hlines]; subst.
        constructor; [| done]. simpl.
        apply Ascii.eqb_neq in Hc. intros [-> | Hin]; [done | by apply Hline].
Qed.

Lemma join_no_newline pieces :
  Forall (fun line => ~ In HistoryQuery.newline (list_ascii_of_string line))
         pieces ->
  ~ In HistoryQuery.newline (list_ascii_of_string (HistoryQuery.join pieces)).
Proof.
  induction 1 as [| line lines Hline _ IH]; simpl; [tauto |].
  assert (Happ : forall a b, list_ascii_of_string (a ++ b)%string =
                   (list_ascii_of_string a ++ list_ascii_of_string b)%list).
  { induction a as [| c a IHa]; intros b; simpl; [done | by rewrite IHa]. }
  rewrite Happ. rewrite in_app_iff. tauto.
Qed.

(** X23.  Without an operation name the display name of a history entry
    is one line: it is put together from the query's lines that do not
    begin with [#], and holds no newline character. *)
Theorem displayName_has_no_newline operationName query name :
  operationName = None \/ operationName = Some EmptyString ->
  HistoryQuery.displayName operationName (Some query) = Ok name ->
  ~ In HistoryQuery.newline (list_ascii_of_string name).
Proof.
  intros [-> | ->]; simpl; intros [= <-];
    apply join_no_newline;
    (apply Forall_forall; intros line Hin;
     apply list_elem_of_filter in Hin as [_ Hin];
     pose proof (split_lines_no_newline query) as Hall;
     rewrite Forall_forall in Hall; by apply Hall).
Qed.

Lemma displayName_has_no_newline_witness :
  HistoryQuery.displayName None
    (Some (String "#" (String "c" (String HistoryQuery.newline "{a}")))) =
    Ok "{a}" /\
  ~ In HistoryQuery.newline (list_ascii_of_string "{a}").
Proof.
  split; [vm_compute; reflexivity |].
  apply (displayName_has_no_newline None
           (String "#" (String "c" (String HistoryQuery.newline "{a}"))) "{a}").
  - by left.
  - vm_compute. reflexivity.
Defined.

Lemma fold_visit_some children : forall current,
  fold_left ToolbarSelect.visit children (Some current) =
    Some (match last (filter (fun c => ToolbarSelect.selected c = true) children) with
          | Some child => child
          | None => current
          end).
Proof.
  induction children as [| child rest IH]; intros current; simpl; [done |].
  destruct (ToolbarSelect.selected child) eqn:Hsel.
  - rewrite IH. rewrite filter_cons_True by done.
    destruct (filter _ rest) as [| x xs] eqn:Hf; [done |].
    rewrite last_cons_cons.
    destruct (last (x :: xs)) as [y |] eqn:Hl; [done |].
    by apply last_None in Hl.
  - rewrite IH. by rewrite filter_cons_False by (by rewrite Hsel).
Qed.

(** X24.  The label [ToolbarSelect] shows is that of the last child with
    [selected] set, and that of the first child when no child has it;
    rendering it without any child throws. *)
Theorem shown_label_is_last_selected children :
  ToolbarSelect.shown_label children =
    match last (filter (fun c => ToolbarSelect.selected c = true) children),
          children with
    | Some child, _ => Ok (ToolbarSelect.label child)
    | None, first :: _ => Ok (ToolbarSelect.label first)
    | None, [] => TypeError
    end.
Proof.
  unfold ToolbarSelect.shown_label, ToolbarSelect.selectedChild.
  destruct children as [| first rest]; [done |].
  simpl. rewrite fold_visit_some.
  destruct (ToolbarSelect.selected first) eqn:Hsel.
  - rewrite filter_cons_True by done.
    destruct (filter _ rest) as [| x xs] eqn:Hf; [done |].
    rewrite last_cons_cons.
    destruct (last (x :: xs)) as [y |] eqn:Hl; [done |].
    by apply last_None in Hl.
  - rewrite filter_cons_False by (by rewrite Hsel).
    by destruct (last _).
Qed.

End ComponentFacts.

(** ** The further properties, at concrete inputs *)
Module MoreScenarios.
Import Demo Demo2.

Lemma after_open_frame :
  rule after_open = Val (Seq numberItems) /\
  index numberItems (step after_open) =
    Some (Wrap (t "Number" (Some "number")) true (Some (p "," None))).
Proof. split; vm_compute; reflexivity. Qed.

Lemma unlexable_is_invalidchar_witness :
  getToken host 20 numberListOptions editor emptyObject (at_text "$$ 1") after_open =
    (let* s1 := snapshot_of host editor (at_text "$$ 1") after_open in
     Ok {| ret_style := Some "invalidchar";
           ret_stream :=
             match match_regexp host
                     (snd (eatWhitespace numberListOptions (at_text "$$ 1")))
                     (nonSpaces host) with
             | Some (_, stream') => stream'
             | None => snd (eatWhitespace numberListOptions (at_text "$$ 1"))
             end;
           ret_state := s1;
           ret_cache := emptyObject |}).
Proof.
  apply (unlexable_is_invalidchar host numberListOptions editor 20 emptyObject
           (at_text "$$ 1") after_open); vm_compute; reflexivity.
Defined.

Lemma stack_invariant_kept_witness :
  stack_ok (startState numberListOptions) /\
  exists r,
    getToken host 20 numberListOptions editor emptyObject (line 0 "[1") fresh =
      Ok r /\
    stack_ok (ret_state r).
Proof.
  destruct (stack_invariant_kept host numberListOptions
              Scenarios.numberList_proper Scenarios.host_sound_updates)
    as [Hstart Hstep].
  split; [exact Hstart |].
  pose proof (Hstep editor 20 emptyObject (line 0 "[1") fresh Hstart) as Hkept.
  destruct (getToken host 20 numberListOptions editor emptyObject
                     (line 0 "[1") fresh) as [r | |] eqn:Hcall.
  - exists r. split; [reflexivity | exact Hkept].
  - destruct Hkept.
  - vm_compute in Hcall. discriminate.
Defined.

Lemma fresh_whole_frame : whole_frame fresh.
Proof. by repeat split. Qed.

Lemma pop_after_push_witness :
  depth (pushRule numberList fresh "Document") = S (depth fresh) /\
  popRule (pushRule numberList fresh "Document") = Ok fresh.
Proof. exact (pop_after_push numberList fresh "Document" fresh_whole_frame). Defined.

Lemma frame_settled_after_advance_witness :
  settled (toggle_needsSeperator after_open).
Proof.
  apply (frame_settled_after_advance after_open).
  left. exists true. vm_compute. reflexivity.
Defined.

Lemma advance_and_unwind_stay_in_frame_witness :
  same_globals after_open (toggle_needsSeperator after_open) /\
  depth (toggle_needsSeperator after_open) <= depth after_open.
Proof.
  apply (advance_and_unwind_stay_in_frame after_open).
  left. exists true. vm_compute. reflexivity.
Defined.

Lemma unmatched_optional_is_skipped_witness :
  unsuccessful after_open = Ok (next_step after_open).
Proof.
  apply (unmatched_optional_is_skipped after_open numberItems
           (t "Number" (Some "number")) true (Some (p "," None))).
  - apply after_open_frame.
  - apply after_open_frame.
  - reflexivity.
  - right. right. vm_compute. reflexivity.
  - vm_compute. reflexivity.
Defined.

Lemma accepted_by_matching_terminal_witness :
  exists r terminal,
    (on_stack after_open r \/ exists k, numberList !! k = Some r) /\
    rule_terminal one (at_text EmptyString) r terminal /\
    match_ terminal one = true /\
    Some "number" = style terminal.
Proof.
  apply (accepted_by_matching_terminal host 20 numberList one
           (at_text EmptyString) after_open (Some "number")
           (set_needsAdvance true after_open)).
  vm_compute. reflexivity.
Defined.

Lemma missing_rule_is_unrecognized_witness :
  rule_loop host 5 danglingRules one (at_text EmptyString) (start_of danglingRules) =
    Ok (None, pushRule danglingRules (start_of danglingRules) "Value") /\
  rule (pushRule danglingRules (start_of danglingRules) "Value") = Undefined.
Proof.
  apply (missing_rule_is_unrecognized host 4 danglingRules one
           (at_text EmptyString) (start_of danglingRules) "Value");
    vm_compute; reflexivity.
Defined.

Lemma empty_rule_throws_witness :
  rule_loop host 5 emptyRules one (at_text EmptyString) (start_of emptyRules) =
    TypeError.
Proof.
  apply (empty_rule_throws host 3 emptyRules one (at_text EmptyString)
           (start_of emptyRules) "Value"); vm_compute; reflexivity.
Defined.

Lemma left_recursion_never_returns_witness :
  rule_loop host 50 loopRules one (at_text EmptyString) (start_of loopRules) =
    OutOfFuel.
Proof.
  apply (left_recursion_never_returns host loopRules one (at_text EmptyString)
           "Document" []); try (vm_compute; reflexivity).
  discriminate.
Defined.

Lemma bracket_pair_restores_levels_witness :
  levels (track_indentation (Token.mk "Punctuation" ")")
            (track_indentation open_paren after_open)) =
    Val (levels_or_empty after_open).
Proof.
  apply (bracket_pair_restores_levels open_paren (Token.mk "Punctuation" ")")
           after_open); reflexivity.
Defined.

Lemma saved_after_one_unrecognized :
  Unrecognized host numberListOptions editor 20 (at_text "(") after_one
    saved_after_one open_paren (at_text EmptyString)
    (unwound_of (rule_loop host 20 numberList open_paren (at_text EmptyString)
                   (track_indentation open_paren saved_after_one))).
Proof. repeat split; vm_compute; reflexivity. Qed.

Lemma saved_after_one_keys : has_all_keys saved_after_one.
Proof. repeat split; vm_compute; discriminate. Qed.

Lemma state_ignores_cache_with_all_keys_witness :
  ret_state <$> getToken host 20 numberListOptions editor emptyObject
                         (at_text "(") after_one =
    ret_state <$> getToken host 20 numberListOptions editor after_open
                           (at_text "(") after_one /\
  ret_state <$> getToken host 20 numberListOptions editor emptyObject
                         (at_text "(") after_one = Ok saved_after_one.
Proof.
  destruct (state_ignores_cache_with_all_keys host numberListOptions editor 20
              emptyObject after_open (at_text "(") after_one saved_after_one
              ltac:(vm_compute; reflexivity) saved_after_one_keys)
    as [Hsame Hback].
  split; [exact Hsame |].
  exact (Hback _ _ _ saved_after_one_unrecognized).
Defined.

Lemma after_one_separated_list :
  at_separated_list saved_after_one (t "Number" (Some "number")) (p "," None).
Proof. exists numberItems. repeat split; vm_compute; reflexivity. Qed.

Lemma separated_list_steps_witness :
  advanceRule saved_after_one true =
    Ok (set_needsSeperator (negb (truthy (needsSeperator saved_after_one)))
                           saved_after_one) /\
  (truthy (needsSeperator saved_after_one) = true ->
   unsuccessful saved_after_one = Ok (set_needsSeperator false saved_after_one)).
Proof.
  exact (separated_list_steps saved_after_one (t "Number" (Some "number"))
           (p "," None) after_one_separated_list).
Defined.

Lemma cache_keys_only_grow_witness :
  keeps_keys after_open
    (saveState after_open saved_after_one).
Proof.
  apply (cache_keys_only_grow host numberListOptions editor 20 after_open
           (at_text "(") after_one
           {| ret_style := Some "invalidchar";
              ret_stream := at_text EmptyString;
              ret_state :=
                restoreState (saveState after_open saved_after_one)
                  (unwound_of (rule_loop host 20 numberList open_paren
                                 (at_text EmptyString)
                                 (track_indentation open_paren saved_after_one)));
              ret_cache := saveState after_open saved_after_one |}).
  exact (getToken_unrecognized host numberListOptions editor 20 after_open
           (at_text "(") after_one saved_after_one open_paren
           (at_text EmptyString) _ saved_after_one_unrecognized).
Defined.

Lemma keep_state_stack_ok :
  forall (a : list (ParserState Stream Update)) s (st : option string)
         (stream : Stream),
    Forall stack_ok a -> stack_ok s -> Forall stack_ok (keep_state a s st stream).
Proof.
  intros a s st stream Ha Hs. unfold keep_state. apply Forall_app.
  split; [done | by constructor].
Qed.

Lemma runMode_keeps_stack_witness :
  exists cache s' acc',
    runMode host at_end (fun s => s) keep_state 10 20 numberListOptions editor
            emptyObject [line 0 "[1,"; line 2 " 2 ]"] [] =
      Ok (cache, s', acc') /\
    stack_ok s' /\ Forall stack_ok acc'.
Proof.
  pose proof (runMode_keeps_stack host at_end (fun s => s) keep_state
                (Forall stack_ok) 10 20 numberListOptions editor emptyObject
                [line 0 "[1,"; line 2 " 2 ]"] []
                Scenarios.numberList_proper Scenarios.host_sound_updates
                keep_state_stack_ok (Forall_nil_2 _)) as Hkept.
  destruct (runMode host at_end (fun s => s) keep_state 10 20 numberListOptions
                    editor emptyObject [line 0 "[1,"; line 2 " 2 ]"] [])
    as [[[cache s'] acc'] | |] eqn:Hrun.
  - exists cache, s', acc'. split; [reflexivity | exact Hkept].
  - destruct Hkept.
  - vm_compute in Hrun. discriminate.
Defined.

Lemma save_small_store_writes_nothing_witness :
  HistoryStore.save full_storage count_items small_store = small_store.
Proof.
  apply (HistoryStoreFacts.save_small_store_writes_nothing full_storage
           count_items small_store).
  simpl. lia.
Defined.

Lemma save_keeps_newest_witness :
  10 <= length (HistoryStore.items
                  (HistoryStore.save full_storage count_items big_store)).
Proof.
  apply (proj1 (proj2 (HistoryStoreFacts.save_keeps_newest full_storage
                         count_items big_store))).
  vm_compute. lia.
Defined.

Lemma push_and_shift_below_ten_witness :
  HistoryStore.push full_storage count_items small_store 4%nat =
    HistoryStore.mk "queries" [] [1; 2; 3; 4]%nat /\
  HistoryStore.shift full_storage count_items small_store =
    HistoryStore.mk "queries" [] [2; 3]%nat /\
  HistoryStore.length_
    (HistoryStore.push full_storage count_items small_store 4%nat) = 4%nat.
Proof.
  apply (HistoryStoreFacts.push_and_shift_below_ten full_storage count_items
           small_store 4%nat).
  vm_compute. lia.
Defined.

Lemma indentation_never_raised_witness :
  levels (track_indentation close_bracket indented) = Val [Num 1] /\
  indentLevel (track_indentation close_bracket indented) = Val (Num 1).
Proof.
  apply (proj2 (proj2 (proj2 (indentation_never_raised close_bracket indented))));
    vm_compute; reflexivity.
Defined.

End MoreScenarios.
